(** * htseq-clip: annotation flattening and sliding windows (clip/gffCLIP.py)

    A shallow embedding of [GeneInfo], of the two traversal modes of
    [gffCLIP.process], of [gffCLIP._write_summary] and of
    [gffCLIP.slidingWindow], with the properties the specification states
    about them. *)

From Stdlib Require Import ZArith String Ascii List Lia.
From stdpp Require Import base gmap strings list fin_maps pretty sorting.

Open Scope Z_scope.

(** ** The Python run time the module relies on *)

Module Py.

(** The exceptions the code can raise. *)
Inductive exn : Type :=
| KeyError
| IndexError
| ValueError (msg : string)
| Exception (msg : string).

(** A call either returns or raises. *)
Inductive result (A : Type) : Type :=
| Ok (a : A)
| Raise (e : exn).
Arguments Ok {A} a.
Arguments Raise {A} e.

Definition bind {A B : Type} (r : result A) (k : A -> result B) : result B :=
  match r with
  | Ok a => k a
  | Raise e => Raise e
  end.

(** [l[i]] on a list: IndexError out of range. *)
Definition index {A : Type} (l : list A) (i : nat) : result A :=
  match l !! i with
  | Some a => Ok a
  | None => Raise IndexError
  end.

(** [str(n)] for an integer. *)
Definition str (n : Z) : string := pretty n.

(** [s.split(c)] for a one-character separator: never empty. *)
Fixpoint split (c : ascii) (s : string) : list string :=
  match s with
  | EmptyString => [EmptyString]
  | String a s' =>
      if Ascii.eqb a c then EmptyString :: split c s'
      else match split c s' with
           | x :: xs => String a x :: xs
           | [] => [String a EmptyString]
           end
  end.

(** ["{:0>w}".format(s)]: right-aligned in a field of width [w],
    filled with zeros; a longer text is left as it is. *)
Definition zfill (w : nat) (s : string) : string :=
  string_of_list_ascii (replicate (w - String.length s)%nat "0"%char) +:+ s.

(** An insertion-ordered dictionary with string keys: the items in the
    order in which their keys were first set. *)
Definition odict (V : Type) : Type := list (string * V).

Fixpoint od_get {V : Type} (d : odict V) (k : string) : option V :=
  match d with
  | [] => None
  | (k', v) :: d' => if String.eqb k' k then Some v else od_get d' k
  end.

(** [d[k] = v]: an existing key keeps its place, a new one goes last. *)
Fixpoint od_set {V : Type} (d : odict V) (k : string) (v : V) : odict V :=
  match d with
  | [] => [(k, v)]
  | (k', v') :: d' =>
      if String.eqb k' k then (k', v) :: d' else (k', v') :: od_set d' k v
  end.

Definition od_keys {V : Type} (d : odict V) : list string := map fst d.

End Py.

Import Py.

Notation "'do' x <~ r ; k" := (Py.bind r (fun x => k))
  (at level 10, x name, r at level 100, k at level 200).

(** ** Sliding windows: [gffCLIP.slidingWindow] *)

Module Tiler.

(** A data line of the BED file after the splits on newline and tab:
    [line[0]], [int(line[1])], [int(line[2])], [line[3]], [line[4]],
    [line[5]]. *)
Record BedLine : Type := mkBedLine {
  chrom : string;
  start : Z;
  stop : Z;
  name : string;
  score : string;
  strand : string
}.

(** A line of the input file: one that starts with "track", which the
    loop skips, or a data line. *)
Inductive InputLine : Type :=
| Track (rest : string)
| Data (b : BedLine).

(** What one call of [fOutput.write] is given: the components of the
    tuple [seq], before they are turned into text. *)
Record Row : Type := mkRow {
  w_chrom : string;
  w_start : Z;
  w_end : Z;
  w_name : list string;   (* name[:5] *)
  w_uid : string;         (* UID *)
  w_count : Z;            (* windowCount *)
  w_score : string;
  w_strand : string
}.

(** The text written for a row: the fields joined by tabs, the name
    tokens joined by "@". *)
Definition row_text (r : Row) : string :=
  String.concat (String "009"%char EmptyString)
    [w_chrom r; str (w_start r); str (w_end r);
     String.concat "@" (w_name r ++ [w_uid r; str (w_count r)]);
     w_score r; w_strand r] +:+ String "010"%char EmptyString.

(** ["{0}:{1}{2:0>4}W{3:0>5}".format(name[0],name[3],featureNumber,windowCount)] *)
Definition UID (name0 name3 featureNumber : string) (windowCount : Z) : string :=
  name0 +:+ ":" +:+ name3 +:+ zfill 4 featureNumber +:+ "W" +:+ zfill 5 (str windowCount).

(** How a run of the loop ended: it finished, it raised, or the model
    ran out of steps (the Python loop is still running). *)
Inductive status : Type :=
| Finished
| Raised (e : exn)
| OutOfFuel.

(** The state of a run: the window counters per first name token and
    the rows written so far, oldest first. *)
Record State : Type := mkState {
  windowidMap : gmap string Z;
  fOutput : list Row
}.

Definition initial : State := {| windowidMap := ∅; fOutput := [] |}.

Section Config.

(** [self.windowSize], [self.windowStep] *)
Variables windowSize windowStep : Z.

(** The [while pos2 < end] loop. [emit pos1 pos2 windowCount] is the
    row written for a window. Returns how the loop ended, the final
    [windowCount] and the rows written, in order. *)
Fixpoint window_loop (fuel : nat) (emit : Z -> Z -> Z -> Row)
    (end_ pos1 pos2 windowCount : Z) : status * Z * list Row :=
  if pos2 <? end_ then
    match fuel with
    | O => (OutOfFuel, windowCount, [])
    | S fuel' =>
        let r := emit pos1 pos2 windowCount in
        let pos1 := pos1 + windowStep in
        let pos2 := pos2 + windowStep in
        let windowCount := windowCount + 1 in
        if pos2 >? end_ then
          let pos2 := end_ in
          let r' := emit pos1 pos2 windowCount in
          let windowCount := windowCount + 1 in
          let '(s, wc, rows) := window_loop fuel' emit end_ pos1 pos2 windowCount in
          (s, wc, r :: r' :: rows)
        else
          let '(s, wc, rows) := window_loop fuel' emit end_ pos1 pos2 windowCount in
          (s, wc, r :: rows)
    end
  else (Finished, windowCount, []).

(** The windows of one interval, from the counter [windowCount]
    (lines 303-331). *)
Definition windows (fuel : nat) (emit : Z -> Z -> Z -> Row)
    (start end_ windowCount : Z) : status * Z * list Row :=
  let pos1 := start in
  let pos2 := start + windowSize in
  if pos2 >=? end_ then
    (Finished, windowCount + 1, [emit start end_ windowCount])
  else
    window_loop fuel emit end_ pos1 pos2 windowCount.

(** The row of a window of the line [b]. *)
Definition emit_row (b : BedLine) (name : list string) (name0 name3 featureNumber : string)
    (pos1 pos2 windowCount : Z) : Row :=
  {| w_chrom := chrom b; w_start := pos1; w_end := pos2;
     w_name := take 5 name;
     w_uid := UID name0 name3 featureNumber windowCount;
     w_count := windowCount;
     w_score := score b; w_strand := strand b |}.

(** The name field of a line: [name = line[3].split('@')] and
    [featureNumber, _ = name[4].split('/')]. *)
Definition parse_name (b : BedLine) : result (list string * string) :=
  let name := split "@" (name b) in
  do name4 <~ index name 4;
  match split "/" name4 with
  | [featureNumber; _] => Ok (name, featureNumber)
  | _ => Raise (ValueError "unpack")
  end.

(** The counter a line starts from, and the map after the lookup:
    the [try] and [except KeyError] branches. *)
Definition first_count (m : gmap string Z) (name0 : string) : gmap string Z * Z :=
  match m !! name0 with
  | Some c => (m, c + 1)
  | None => (<[name0 := 1]> m, 1)
  end.

(** The body of the loop over the lines, for a data line. *)
Definition tile_line (fuel : nat) (st : State) (b : BedLine) : status * State :=
  match parse_name b with
  | Raise e => (Raised e, st)
  | Ok (name, featureNumber) =>
      let name0 := nth 0 name EmptyString in
      let name3 := nth 3 name EmptyString in
      let '(m, windowCount) := first_count (windowidMap st) name0 in
      let '(s, windowCount', rows) :=
        windows fuel (emit_row b name name0 name3 featureNumber)
                (start b) (stop b) windowCount in
      let out := fOutput st ++ rows in
      match s with
      | Finished =>
          (Finished, {| windowidMap := <[name0 := windowCount']> m; fOutput := out |})
      | _ => (s, {| windowidMap := m; fOutput := out |})
      end
  end.

(** The rows written while the line [b] is processed in state [st]. *)
Definition line_rows (fuel : nat) (st : State) (b : BedLine) : list Row :=
  drop (length (fOutput st)) (fOutput (tile_line fuel st b).2).

(** [slidingWindow]: the loop over the lines of the file. *)
Fixpoint tile_lines (fuel : nat) (st : State) (lines : list InputLine) : status * State :=
  match lines with
  | [] => (Finished, st)
  | Track _ :: lines' => tile_lines fuel st lines'
  | Data b :: lines' =>
      match tile_line fuel st b with
      | (Finished, st') => tile_lines fuel st' lines'
      | stopped => stopped
      end
  end.

Definition slidingWindow (fuel : nat) (lines : list InputLine) : status * State :=
  tile_lines fuel initial lines.

End Config.

(** The windows of a list of rows, as pairs, and their counters. *)
Definition intervals (rows : list Row) : list (Z * Z) :=
  map (fun r => (w_start r, w_end r)) rows.

Definition counters (rows : list Row) : list Z := map w_count rows.

(** The first name token of a row. *)
Definition name0_of (r : Row) : string := nth 0 (w_name r) EmptyString.

(** A position of the interval lies in one of the windows. *)
Definition covered (rows : list Row) (x : Z) : Prop :=
  Exists (fun r => w_start r <= x < w_end r) rows.

(** A row is a proper window. *)
Definition proper (r : Row) : Prop := w_start r < w_end r.

(** The windowing rule in the words of the specification, for an interval
    longer than a window: windows of width [windowSize] from [start],
    stepping by [windowStep], while the end of the window stays below
    [end]; when advancing gives an end at or beyond [end], one final
    window that ends at [end], and no more. *)
Fixpoint spec_windows (fuel : nat) (windowStep end_ pos1 pos2 : Z) : list (Z * Z) :=
  match fuel with
  | O => []
  | S fuel' =>
      (pos1, pos2) ::
      (if pos2 + windowStep >=? end_ then [(pos1 + windowStep, end_)]
       else spec_windows fuel' windowStep end_ (pos1 + windowStep) (pos2 + windowStep))
  end.

(** The number of occurrences of a character in a text. *)
Fixpoint count_char (c : ascii) (s : string) : nat :=
  match s with
  | EmptyString => O
  | String a s' => if Ascii.eqb a c then S (count_char c s') else count_char c s'
  end.

(** Among the rows of one name the counters grow strictly in the order
    in which the rows were written. *)
Definition increasing_per_name (rows : list Row) : Prop :=
  forall i j r1 r2,
    (i < j)%nat -> rows !! i = Some r1 -> rows !! j = Some r2 ->
    name0_of r1 = name0_of r2 -> w_count r1 < w_count r2.

(** The end of the stretch the windows of [start, end) reach. *)
Definition reach (windowSize windowStep start end_ : Z) : Z :=
  if start + windowSize >=? end_ then end_
  else if decide ((end_ - (start + windowSize)) mod windowStep = 0)
       then end_ - windowStep
       else end_.

(** What holds between the lines: the counters of a name grow, and the
    counter stored for a name is above all those written for it. *)
Definition counters_kept (st : State) : Prop :=
  increasing_per_name (fOutput st) /\
  forall r, r ∈ fOutput st ->
    exists c, windowidMap st !! name0_of r = Some c /\ w_count r < c.

(** A row read back as a data line: the fields of [row_text]. *)
Definition row_line (r : Row) : BedLine :=
  {| chrom := w_chrom r; start := w_start r; stop := w_end r;
     name := String.concat "@" (w_name r ++ [w_uid r; str (w_count r)]);
     score := w_score r; strand := w_strand r |}.

End Tiler.

(** ** Features and [GeneInfo] *)

Module Gff.

(** [HTSeq.GenomicInterval]: the part of it the module reads. *)
Record GenomicInterval : Type := mkInterval {
  chrom : string;
  start : Z;
  end_ : Z;
  strand : string
}.

(** [HTSeq.GenomicFeature]: type, interval and attribute dictionary. *)
Record Feature : Type := mkFeature {
  type : string;
  iv : GenomicInterval;
  attr : gmap string string
}.

(** The class [GeneInfo]. [_typeMap] sends a feature type to the
    positions in [_featList] of the features of that type. *)
Record GeneInfo : Type := mkGeneInfo {
  id : string;
  _featList : list Feature;
  _geneDefinitions : gset string;
  _typeMap : gmap string (list nat)
}.

(** The default of the parameter [geneDefinitions] of [__init__]. *)
Definition default_geneDefinitions : list string :=
  ["tRNA"; "gene"; "tRNAscan"; "tRNA_gene"]%string.

(** [GeneInfo.__init__] *)
Definition GeneInfo_init (id : string) (geneDefinitions : list string) : GeneInfo :=
  {| id := id;
     _featList := [];
     _geneDefinitions := list_to_set geneDefinitions;
     _typeMap := ∅ |}.

(** [GeneInfo.add_feature] *)
Definition add_feature (self : GeneInfo) (f : Feature) : GeneInfo :=
  let featList := _featList self ++ [f] in
  let typeMap :=
    match _typeMap self !! type f with
    | Some l => <[type f := l ++ [(length featList - 1)%nat]]> (_typeMap self)
    | None => <[type f := [(length featList - 1)%nat]]> (_typeMap self)
    end in
  {| id := id self;
     _featList := featList;
     _geneDefinitions := _geneDefinitions self;
     _typeMap := typeMap |}.

(** [GeneInfo.features] *)
Definition features (self : GeneInfo) : list Feature := _featList self.

(** The loop of [_checkGeneFeature]: the starts, ends and strands of
    the features at the positions [geneInd], gathered in three sets. *)
Fixpoint gather (featList : list Feature) (geneInd : list nat)
    (start_pos end_pos : gset Z) (strands : gset string)
    : result (gset Z * gset Z * gset string) :=
  match geneInd with
  | [] => Ok (start_pos, end_pos, strands)
  | gi :: geneInd' =>
      do f <~ index featList gi;
      gather featList geneInd'
        (start_pos ∪ {[start (iv f)]}) (end_pos ∪ {[end_ (iv f)]})
        (strands ∪ {[strand (iv f)]})
  end.

(** [GeneInfo._checkGeneFeature] *)
Definition _checkGeneFeature (self : GeneInfo) (geneInd : list nat) : result bool :=
  do sets <~ gather (_featList self) geneInd ∅ ∅ ∅;
  let '(start_pos, end_pos, strands) := sets in
  if ((size start_pos =? 1) && (size end_pos =? 1) && (size strands =? 1))%nat
  then Ok true else Ok false.

(** The texts [GeneInfo.gene] writes to [sys.stderr]. *)
Definition nl : string := String "010"%char EmptyString.
Definition msg_no_definition (id : string) : string :=
  id +:+ ": No gene definitions found!...Skipping" +:+ nl.
Definition msg_multiple_definitions (id : string) : string :=
  id +:+ ": Multiple gene definitions found!...Skipping" +:+ nl.
Definition msg_same_coordinates (id : string) : string :=
  id +:+ ": Found multiple attributes for the same gene co-ordinates, using one at random" +:+ nl.
Definition msg_multiple_features (id : string) : string :=
  id +:+ ": Multiple gene features found!...Skipping" +:+ nl.

(** [GeneInfo.gene]: the feature returned ([None] as [None]) and what
    was written to [sys.stderr]. *)
Definition gene (self : GeneInfo) : result (option Feature * list string) :=
  let geneDef := elements (_geneDefinitions self ∩ dom (_typeMap self)) in
  if (length geneDef =? 0)%nat then
    Ok (None, [msg_no_definition (id self)])
  else if (1 <? length geneDef)%nat then
    Ok (None, [msg_multiple_definitions (id self)])
  else
    do geneDef0 <~ index geneDef 0;
    do geneInd <~ match _typeMap self !! geneDef0 with
                  | Some l => Ok l
                  | None => Raise KeyError
                  end;
    if (1 <? length geneInd)%nat then
      do same <~ _checkGeneFeature self geneInd;
      if same then
        do geneInd0 <~ index geneInd 0;
        do f <~ index (_featList self) geneInd0;
        Ok (Some f, [msg_same_coordinates (id self)])
      else
        Ok (None, [msg_multiple_features (id self)])
    else
      do geneInd0 <~ index geneInd 0;
      do f <~ index (_featList self) geneInd0;
      Ok (Some f, []).

(** A [GeneInfo] after the calls [add_feature(f)] for the features of
    [fs], in order. *)
Definition collect (id : string) (geneDefinitions : list string) (fs : list Feature) : GeneInfo :=
  fold_left add_feature fs (GeneInfo_init id geneDefinitions).

(** The coordinates [_checkGeneFeature] compares. *)
Definition triple (f : Feature) : Z * Z * string :=
  (start (iv f), end_ (iv f), strand (iv f)).

(** The features of [fs] of type [t], in order. *)
Definition occurrences (t : string) (fs : list Feature) : list Feature :=
  filter (fun f => type f = t) fs.

(** The positions in [fs] of the features of type [t], increasing. *)
Definition positions (t : string) (fs : list Feature) : list nat :=
  filter (fun i => type <$> fs !! i = Some t) (seq 0 (length fs)).

(** The gene-defining types that occur in [fs]. *)
Definition gene_types (geneDefinitions : list string) (fs : list Feature) : gset string :=
  list_to_set geneDefinitions ∩ list_to_set (type <$> fs).

(** All the features of a list have the same coordinates. *)
Definition same_triples (occ : list Feature) : Prop :=
  forall f g, f ∈ occ -> g ∈ occ -> triple f = triple g.

End Gff.

(** ** The annotation processor: [gffCLIP.process] *)

Module Clip.

Import Gff.

(** Modelled from the spec: the class [Gene] (Gene.py is not among the
    sources). A gene accumulator holds its canonical gene feature and
    the ordered sequence of the subordinate features added to it; the
    two flags are the attributes [_process_sorted] and
    [_process_unsorted] set on it. *)
Record Gene : Type := mkGene {
  feature : Feature;
  splitExons : bool;
  processGeneOnlyInformation : bool;
  subordinates : list Feature
}.

(** Modelled from the spec: [Gene(feature)] followed by the two
    attribute assignments. *)
Definition Gene_new (f : Feature) (splitExons processGeneOnlyInformation : bool) : Gene :=
  {| feature := f; splitExons := splitExons;
     processGeneOnlyInformation := processGeneOnlyInformation;
     subordinates := [] |}.

(** Modelled from the spec: [Gene.add] appends the feature to the
    accumulator. *)
Definition Gene_add (g : Gene) (f : Feature) : Gene :=
  {| feature := feature g; splitExons := splitExons g;
     processGeneOnlyInformation := processGeneOnlyInformation g;
     subordinates := subordinates g ++ [f] |}.

(** Modelled from the spec: the class [GeneLengthSummary]
    (GeneLengthSummary.py is not among the sources): two
    insertion-ordered mappings to cumulative lengths. *)
Record GeneLengthSummary : Type := mkSummary {
  chromosomes : odict Z;
  genetypes : odict Z
}.

Definition empty_summary : GeneLengthSummary :=
  {| chromosomes := []; genetypes := [] |}.

(** Modelled from the spec: a length added to the entry of a key, which
    starts at zero. *)
Definition od_add (d : odict Z) (k : string) (n : Z) : odict Z :=
  od_set d k (default 0 (od_get d k) + n).

(** Modelled from the spec: the contribution of one finalized gene to
    [GeneLengthSummary]: its length goes to its chromosome and to its
    gene type. *)
Definition add_length (s : GeneLengthSummary) (chrom gtype : string) (n : Z)
    : GeneLengthSummary :=
  {| chromosomes := od_add (chromosomes s) chrom n;
     genetypes := od_add (genetypes s) gtype n |}.

(** The summary after the contributions [cs] (chromosome, gene type,
    length), one per finalized gene, in order. *)
Definition accumulate (cs : list (string * string * Z)) : GeneLengthSummary :=
  fold_left (fun s c => add_length s c.1.1 c.1.2 c.2) cs empty_summary.

(** A mapping after the lengths [items] were added to it, in order. *)
Definition tally (items : list (string * Z)) : odict Z :=
  fold_left (fun d item => od_add d item.1 item.2) items [].

(** The keys of a sequence in the order in which they are first seen. *)
Definition first_seen (ks : list string) : list string :=
  fold_left (fun acc k => if decide (k ∈ acc) then acc else acc ++ [k]) ks [].

(** The sum of the lengths contributed under the key [k]. *)
Definition total (k : string) (items : list (string * Z)) : Z :=
  foldr Z.add 0 (snd <$> filter (fun item => item.1 = k) items).

(** The state of a run: the lines written to [self.fOutput], oldest
    first, and [self.summary]. *)
Record Run : Type := mkRun {
  fOutput : list string;
  summary : GeneLengthSummary
}.

Definition start_run : Run := {| fOutput := []; summary := empty_summary |}.

Definition msg_out_of_order : string :=
  "GTF/GFF file provides gene feature info before the actual gene definition.".

Definition msg_cannot_parse (gtfFile : string) : string :=
  "Cannot parse gene features from " +:+ gtfFile +:+ "! Please check this input file".

(** [_write_summary] *)
Definition chr_line (item : string * Z) : string :=
  "track chr " +:+ item.1 +:+ " " +:+ str item.2 +:+ nl.
Definition type_line (item : string * Z) : string :=
  "track type " +:+ item.1 +:+ " " +:+ str item.2 +:+ nl.

Definition _write_summary (st : Run) : Run :=
  {| fOutput := fOutput st ++ (chr_line <$> chromosomes (summary st))
                           ++ (type_line <$> genetypes (summary st));
     summary := summary st |}.

Section Processor.

(** The collaborators that are not among the sources:
    [GTxFeature.isGene], [Gene.toBedDetailed] and
    [GeneLengthSummary.add]. *)
Variable isGene : Feature -> bool.
Variable toBedDetailed : Gene -> list string.
Variable summary_add : GeneLengthSummary -> Gene -> GeneLengthSummary.

(** The attributes of the [gffCLIP] object. *)
Variable gtfFile : string.
Variable geneId : string.
Variable geneDefinitions : list string.
Variable splitExons_opt : bool.
Variable processGeneOnlyInformation_opt : bool.

(** [processGene] *)
Definition processGene (gene : option Gene) (st : Run) : Run :=
  match gene with
  | None => st
  | Some g =>
      {| fOutput := fOutput st ++ ((fun be => be +:+ nl) <$> toBedDetailed g);
         summary := summary_add (summary st) g |}
  end.

(** The loop of [_process_sorted], from the slot [gene]. *)
Fixpoint sorted_loop (gene : option Gene) (st : Run) (gtf : list Feature)
    : result (option Gene * Run) :=
  match gtf with
  | [] => Ok (gene, st)
  | f :: gtf' =>
      if isGene f then
        let st := processGene gene st in
        sorted_loop (Some (Gene_new f splitExons_opt processGeneOnlyInformation_opt)) st gtf'
      else
        match gene with
        | None => Raise (Exception msg_out_of_order)
        | Some g => sorted_loop (Some (Gene_add g f)) st gtf'
        end
  end.

(** [_process_sorted] *)
Definition _process_sorted (st : Run) (gtf : list Feature) : result Run :=
  do r <~ sorted_loop None st gtf;
  Ok (processGene r.1 r.2).

(** The first loop of [_process_unsorted]: one step and the whole
    pass, on the insertion-ordered [_geneMap]. *)
Definition group_feature (geneMap : odict GeneInfo) (f : Feature) : odict GeneInfo :=
  match attr f !! geneId with
  | None => geneMap
  | Some gid =>
      match od_get geneMap gid with
      | Some geneObj => od_set geneMap gid (add_feature geneObj f)
      | None =>
          od_set geneMap gid
            (add_feature (GeneInfo_init gid default_geneDefinitions) f)
      end
  end.

Definition group_features (gtf : list Feature) : odict GeneInfo :=
  fold_left group_feature gtf [].

(** The gene built for a resolved [GeneInfo]: the features whose type
    is a gene definition are left out. *)
Definition build_gene (_gene : Feature) (geneObj : GeneInfo) : Gene :=
  fold_left Gene_add
    (filter (fun f => type f ∉ (list_to_set geneDefinitions : gset string))
            (features geneObj))
    (Gene_new _gene splitExons_opt processGeneOnlyInformation_opt).

(** The second loop of [_process_unsorted]. What [GeneInfo.gene]
    writes to [sys.stderr] is not part of the run. *)
Fixpoint emit_genes (st : Run) (items : list (string * GeneInfo)) : result Run :=
  match items with
  | [] => Ok st
  | (_, geneObj) :: items' =>
      do r <~ gene geneObj;
      match r.1 with
      | None => emit_genes st items'
      | Some _gene => emit_genes (processGene (Some (build_gene _gene geneObj)) st) items'
      end
  end.

(** [_process_unsorted] *)
Definition _process_unsorted (st : Run) (gtf : list Feature) : result Run :=
  let geneMap := group_features gtf in
  if (length geneMap =? 0)%nat then
    Raise (ValueError (msg_cannot_parse gtfFile))
  else emit_genes st geneMap.

(** The features of [gtf] that carry the gene id [gid]. *)
Definition features_of (gid : string) (gtf : list Feature) : list Feature :=
  filter (fun f => attr f !! geneId = Some gid) gtf.

(** A [GeneInfo] that [GeneInfo.gene] does not resolve: none of its
    types is gene-defining, more than one is, or its gene-defining
    features differ in their coordinates. *)
Definition unresolved (defs : list string) (fs : list Feature) : Prop :=
  size (gene_types defs fs) = 0%nat \/
  (1 < size (gene_types defs fs))%nat \/
  exists t f rest,
    gene_types defs fs = {[t]} /\ occurrences t fs = f :: rest /\
    rest <> [] /\ ~ same_triples (f :: rest).

(** [process] *)
Definition process (unsorted : bool) (gtf : list Feature) : result Run :=
  let st := start_run in
  do st <~ (if unsorted then _process_unsorted st gtf else _process_sorted st gtf);
  Ok (_write_summary st).

End Processor.

(** A stream in file order: blocks of a gene-defining feature and the
    features that follow it up to the next gene-defining feature. *)
Definition flatten_blocks (blocks : list (Feature * list Feature)) : list Feature :=
  concat ((fun blk => blk.1 :: blk.2) <$> blocks).

(** The gene of a block: its first feature with the others as
    subordinate features. *)
Definition gene_of_block (splitExons_opt processGeneOnlyInformation_opt : bool)
    (blk : Feature * list Feature) : Gene :=
  {| feature := blk.1; splitExons := splitExons_opt;
     processGeneOnlyInformation := processGeneOnlyInformation_opt;
     subordinates := blk.2 |}.

(** The lines [processGene] writes for a gene. *)
Definition lines_of (toBedDetailed : Gene -> list string) (g : Gene) : list string :=
  (fun be => be +:+ nl) <$> toBedDetailed g.

(** The run after the genes [genes] were finalized, in order. *)
Definition finalized (toBedDetailed : Gene -> list string)
    (summary_add : GeneLengthSummary -> Gene -> GeneLengthSummary)
    (st : Run) (genes : list Gene) : Run :=
  {| fOutput := fOutput st ++ concat (lines_of toBedDetailed <$> genes);
     summary := fold_left summary_add genes (summary st) |}.

(** The genes of the entries of [_geneMap] that [GeneInfo.gene]
    resolves, in the order of the entries. *)
Definition resolved_genes (geneDefinitions : list string)
    (splitExons_opt processGeneOnlyInformation_opt : bool)
    (items : list (string * GeneInfo)) : list Gene :=
  omap (fun item : string * GeneInfo =>
          match gene item.2 with
          | Ok (Some _gene, _) =>
              Some (build_gene geneDefinitions splitExons_opt
                      processGeneOnlyInformation_opt _gene item.2)
          | _ => None
          end) items.

(** The gene ids of the features that carry one, in file order. *)
Definition gene_ids (geneId : string) (gtf : list Feature) : list string :=
  omap (fun f => attr f !! geneId) gtf.

(** The features of a block carry the same gene id. *)
Definition block_id (geneId : string) (blk : Feature * list Feature) (gid : string) : Prop :=
  attr blk.1 !! geneId = Some gid /\
  Forall (fun f => attr f !! geneId = Some gid) blk.2.

End Clip.

(** ** Concrete inputs *)

Module Examples.

(** A BED line of the gene "geneA". *)
Definition example_line (s e : Z) : Tiler.BedLine :=
  {| Tiler.chrom := "chr1"; Tiler.start := s; Tiler.stop := e;
     Tiler.name := "geneA@ENSG01@protein_coding@exon@3/7@ENSG01:exon0003";
     Tiler.score := "0"; Tiler.strand := "+" |}.

(** A feature on the forward strand of chr1 with the gene id [gid]. *)
Definition feat (ty : string) (s e : Z) (gid note : string) : Gff.Feature :=
  {| Gff.type := ty;
     Gff.iv := {| Gff.chrom := "chr1"; Gff.start := s; Gff.end_ := e; Gff.strand := "+" |};
     Gff.attr := {[ "gene_id"%string := gid; "note"%string := note ]} |}.

Definition gene1 : Gff.Feature := feat "gene" 100 220 "g1" "first".
Definition gene1_copy : Gff.Feature := feat "gene" 100 220 "g1" "second".
Definition gene1_moved : Gff.Feature := feat "gene" 100 230 "g1" "third".
Definition trna1 : Gff.Feature := feat "tRNA" 100 220 "g1" "fourth".
Definition exon1 : Gff.Feature := feat "exon" 100 150 "g1" "fifth".
Definition gene2 : Gff.Feature := feat "gene" 300 400 "g2" "seventh".
Definition exon2 : Gff.Feature := feat "exon" 300 350 "g2" "eighth".

(** A feature without the attribute "gene_id". *)
Definition anonymous : Gff.Feature :=
  {| Gff.type := "exon";
     Gff.iv := {| Gff.chrom := "chr1"; Gff.start := 1; Gff.end_ := 9; Gff.strand := "-" |};
     Gff.attr := {[ "note"%string := "sixth"%string ]} |}.

(** Stand-ins for the collaborators of the processor. *)
Definition by_type (f : Gff.Feature) : bool :=
  bool_decide (Gff.type f ∈ Gff.default_geneDefinitions).

Definition bed_of (g : Clip.Gene) : list string :=
  [Gff.chrom (Gff.iv (Clip.feature g))].

Definition count_gene (s : Clip.GeneLengthSummary) (g : Clip.Gene) : Clip.GeneLengthSummary :=
  Clip.add_length s (Gff.chrom (Gff.iv (Clip.feature g))) "protein_coding"
    (Gff.end_ (Gff.iv (Clip.feature g)) - Gff.start (Gff.iv (Clip.feature g))).

End Examples.

(** ** Properties of the sliding windows *)

Module TilerFacts.

Import Tiler Examples.

Section Loop.

Variables windowSize windowStep : Z.
Variable emit : Z -> Z -> Z -> Row.

Lemma window_loop_exit fuel end_ pos1 pos2 wc :
  end_ <= pos2 ->
  window_loop windowStep fuel emit end_ pos1 pos2 wc = (Finished, wc, []).
Proof.
  intros H. destruct fuel; simpl; destruct (Z.ltb_spec pos2 end_); auto; lia.
Qed.

Lemma window_loop_step fuel end_ pos1 pos2 wc :
  pos2 < end_ ->
  window_loop windowStep (S fuel) emit end_ pos1 pos2 wc =
    if pos2 + windowStep >? end_ then
      (Finished, wc + 1 + 1,
       [emit pos1 pos2 wc; emit (pos1 + windowStep) end_ (wc + 1)])
    else
      let '(s, wc', rows) :=
        window_loop windowStep fuel emit end_ (pos1 + windowStep)
                    (pos2 + windowStep) (wc + 1) in
      (s, wc', emit pos1 pos2 wc :: rows).
Proof.
  intros H. simpl.
  destruct (Z.ltb_spec pos2 end_); [|lia].
  destruct (pos2 + windowStep >? end_); [|reflexivity].
  rewrite window_loop_exit by lia. reflexivity.
Qed.

(** With a positive step the loop ends: the distance of [pos2] to
    [end] bounds the number of rounds. *)
Lemma window_loop_finishes fuel end_ pos1 pos2 wc :
  0 < windowStep ->
  (Z.to_nat (end_ - pos2) <= fuel)%nat ->
  (window_loop windowStep fuel emit end_ pos1 pos2 wc).1.1 = Finished.
Proof.
  intros Hstep. revert pos1 pos2 wc.
  induction fuel as [|fuel IH]; intros pos1 pos2 wc Hfuel.
  - rewrite window_loop_exit by lia. reflexivity.
  - destruct (Z.lt_ge_cases pos2 end_) as [Hlt|Hge].
    + rewrite window_loop_step by assumption.
      destruct (pos2 + windowStep >? end_); [reflexivity|].
      specialize (IH (pos1 + windowStep) (pos2 + windowStep) (wc + 1)).
      destruct (window_loop _ _ _ _ _ _ _) as [[s wc'] rows].
      simpl in *. apply IH. lia.
    + rewrite window_loop_exit by lia. reflexivity.
Qed.

(** A loop that finished does the same with more fuel. *)
Lemma window_loop_more_fuel fuel k end_ pos1 pos2 wc :
  (window_loop windowStep fuel emit end_ pos1 pos2 wc).1.1 = Finished ->
  window_loop windowStep (fuel + k) emit end_ pos1 pos2 wc =
  window_loop windowStep fuel emit end_ pos1 pos2 wc.
Proof.
  revert pos1 pos2 wc.
  induction fuel as [|fuel IH]; intros pos1 pos2 wc Hfin.
  - destruct (Z.lt_ge_cases pos2 end_) as [Hlt|Hge].
    + simpl in Hfin. destruct (Z.ltb_spec pos2 end_); [discriminate|lia].
    + rewrite !window_loop_exit by lia. reflexivity.
  - destruct (Z.lt_ge_cases pos2 end_) as [Hlt|Hge].
    + change (S fuel + k)%nat with (S (fuel + k)).
      rewrite window_loop_step in Hfin by assumption.
      rewrite !window_loop_step by assumption.
      destruct (pos2 + windowStep >? end_); [reflexivity|].
      rewrite IH; [reflexivity|].
      destruct (window_loop _ _ _ _ _ _ _) as [[s wc'] rows]. exact Hfin.
    + rewrite !window_loop_exit by lia. reflexivity.
Qed.

(** The counters of the rows of one loop are consecutive, and the
    final counter is the next free one. *)
Lemma window_loop_counters fuel end_ pos1 pos2 wc :
  (forall p1 p2 c, w_count (emit p1 p2 c) = c) ->
  let '(s, wc', rows) := window_loop windowStep fuel emit end_ pos1 pos2 wc in
  counters rows = seqZ wc (Z.of_nat (length rows)) /\
  (s = Finished -> wc' = wc + Z.of_nat (length rows)).
Proof.
  intros Hemit. revert pos1 pos2 wc.
  induction fuel as [|fuel IH]; intros pos1 pos2 wc.
  - simpl. destruct (pos2 <? end_); simpl; split; auto; intros; lia || discriminate.
  - destruct (Z.lt_ge_cases pos2 end_) as [Hlt|Hge].
    + rewrite window_loop_step by assumption.
      destruct (pos2 + windowStep >? end_).
      * simpl. rewrite !Hemit. split; [|intros; lia].
        change (Z.of_nat 2) with 2.
        rewrite seqZ_cons by lia. simpl Z.pred.
        rewrite seqZ_cons by lia. simpl Z.pred.
        rewrite seqZ_nil by lia. reflexivity.
      * specialize (IH (pos1 + windowStep) (pos2 + windowStep) (wc + 1)).
        destruct (window_loop _ _ _ _ _ _ _) as [[s wc'] rows].
        destruct IH as [IH1 IH2]. simpl length. split.
        -- unfold counters in *. simpl map. rewrite Hemit, IH1.
           rewrite Nat2Z.inj_succ, (seqZ_cons wc) by lia.
           rewrite Z.pred_succ. reflexivity.
        -- intros Hs. specialize (IH2 Hs). lia.
    + rewrite window_loop_exit by lia. simpl. split; auto. intros; lia.
Qed.

(** Every row of the loop is a proper window when the step is at most
    the width. *)
Lemma window_loop_proper fuel end_ pos1 pos2 wc :
  (forall p1 p2 c, w_start (emit p1 p2 c) = p1 /\ w_end (emit p1 p2 c) = p2) ->
  0 < windowSize -> windowStep <= windowSize ->
  pos2 = pos1 + windowSize ->
  Forall proper (window_loop windowStep fuel emit end_ pos1 pos2 wc).2.
Proof.
  intros Hemit Hsize Hstep. revert pos1 pos2 wc.
  induction fuel as [|fuel IH]; intros pos1 pos2 wc Hpos.
  - simpl. destruct (pos2 <? end_); constructor.
  - destruct (Z.lt_ge_cases pos2 end_) as [Hlt|Hge].
    + rewrite window_loop_step by assumption.
      destruct (Z.gtb_spec (pos2 + windowStep) end_).
      * simpl.
        destruct (Hemit pos1 pos2 wc) as [E1 E2].
        destruct (Hemit (pos1 + windowStep) end_ (wc + 1)) as [E3 E4].
        constructor; [|constructor; [|constructor]]; unfold proper; lia.
      * specialize (IH (pos1 + windowStep) (pos2 + windowStep) (wc + 1)).
        destruct (window_loop _ _ _ _ _ _ _) as [[s wc'] rows].
        simpl in *. constructor.
        -- unfold proper. destruct (Hemit pos1 pos2 wc) as [-> ->]. lia.
        -- apply IH. lia.
    + rewrite window_loop_exit by lia. constructor.
Qed.

(** The loop against the rule of the specification: the same windows,
    but for the last one when an advance lands on [end] exactly. *)
Lemma window_loop_against_spec fuel end_ pos1 pos2 wc :
  (forall p1 p2 c, w_start (emit p1 p2 c) = p1 /\ w_end (emit p1 p2 c) = p2) ->
  0 < windowStep -> pos2 < end_ ->
  (Z.to_nat (end_ - pos2) <= fuel)%nat ->
  intervals (window_loop windowStep fuel emit end_ pos1 pos2 wc).2 =
    if decide ((end_ - pos2) mod windowStep = 0)
    then removelast (spec_windows fuel windowStep end_ pos1 pos2)
    else spec_windows fuel windowStep end_ pos1 pos2.
Proof.
  intros Hemit Hstep. revert pos1 pos2 wc.
  induction fuel as [|fuel IH]; intros pos1 pos2 wc Hlt Hfuel; [lia|].
  rewrite window_loop_step by assumption. cbn [spec_windows].
  destruct (Hemit pos1 pos2 wc) as [E1 E2].
  destruct (Z.gtb_spec (pos2 + windowStep) end_) as [Hgt|Hle].
  - destruct (Z.geb_spec (pos2 + windowStep) end_) as [_|Hn]; [|lia].
    destruct (Hemit (pos1 + windowStep) end_ (wc + 1)) as [E3 E4].
    rewrite decide_False by (rewrite Z.mod_small; lia).
    unfold intervals. simpl. rewrite E1, E2, E3, E4. reflexivity.
  - destruct (Z.eq_dec (pos2 + windowStep) end_) as [Heq|Hne].
    + destruct (Z.geb_spec (pos2 + windowStep) end_) as [_|Hn]; [|lia].
      rewrite window_loop_exit by lia.
      rewrite decide_True.
      * unfold intervals. simpl. rewrite E1, E2. reflexivity.
      * replace (end_ - pos2) with windowStep by lia. apply Z_mod_same_full.
    + destruct (Z.geb_spec (pos2 + windowStep) end_) as [Hn|_]; [lia|].
      specialize (IH (pos1 + windowStep) (pos2 + windowStep) (wc + 1)).
      assert (Hmod : (end_ - (pos2 + windowStep)) mod windowStep =
                     (end_ - pos2) mod windowStep).
      { replace (end_ - (pos2 + windowStep)) with (end_ - pos2 + (-1) * windowStep) by lia.
        apply Z_mod_plus_full. }
      rewrite Hmod in IH.
      destruct (window_loop _ _ _ _ _ _ _) as [[s wc'] rows].
      unfold intervals in *. simpl in *. rewrite E1, E2, IH by lia.
      destruct fuel as [|fuel]; [lia|].
      destruct (decide ((end_ - pos2) mod windowStep = 0)); reflexivity.
Qed.

End Loop.

Section Lines.

Variables windowSize windowStep : Z.

Lemma emit_row_fields b name name0 name3 fn p1 p2 c :
  w_start (emit_row b name name0 name3 fn p1 p2 c) = p1 /\
  w_end (emit_row b name name0 name3 fn p1 p2 c) = p2.
Proof. split; reflexivity. Qed.

(** What a well-formed line does: the rows of its interval are added
    to the output. *)
Lemma tile_line_parsed fuel st b name fn :
  parse_name b = Ok (name, fn) ->
  let name0 := nth 0 name EmptyString in
  let r := windows windowSize windowStep fuel
             (emit_row b name name0 (nth 3 name EmptyString) fn)
             (start b) (stop b) (first_count (windowidMap st) name0).2 in
  (tile_line windowSize windowStep fuel st b).1 = r.1.1 /\
  fOutput (tile_line windowSize windowStep fuel st b).2 = fOutput st ++ r.2.
Proof.
  intros Hp. unfold tile_line. rewrite Hp. cbv zeta.
  destruct (first_count _ _) as [m wc]. simpl snd.
  destruct (windows _ _ _ _ _ _ _) as [[s wc'] rows].
  destruct s; simpl; auto.
Qed.

Lemma line_rows_parsed fuel st b name fn :
  parse_name b = Ok (name, fn) ->
  let name0 := nth 0 name EmptyString in
  line_rows windowSize windowStep fuel st b =
    (windows windowSize windowStep fuel
       (emit_row b name name0 (nth 3 name EmptyString) fn)
       (start b) (stop b) (first_count (windowidMap st) name0).2).2.
Proof.
  intros Hp. unfold line_rows.
  destruct (tile_line_parsed fuel st b name fn Hp) as [_ ->].
  apply drop_app_length.
Qed.

Lemma line_rows_malformed fuel st b e :
  parse_name b = Raise e ->
  line_rows windowSize windowStep fuel st b = [].
Proof.
  intros Hp. unfold line_rows, tile_line. rewrite Hp. simpl.
  apply drop_all.
Qed.

Lemma windows_single fuel emit start end_ wc :
  start + windowSize >= end_ ->
  windows windowSize windowStep fuel emit start end_ wc =
    (Finished, wc + 1, [emit start end_ wc]).
Proof.
  intros H. unfold windows.
  destruct (Z.geb_spec (start + windowSize) end_); [reflexivity|lia].
Qed.

Lemma windows_proper fuel emit start end_ wc :
  (forall p1 p2 c, w_start (emit p1 p2 c) = p1 /\ w_end (emit p1 p2 c) = p2) ->
  start < end_ ->
  start + windowSize >= end_ \/ (0 < windowSize /\ windowStep <= windowSize) ->
  Forall proper (windows windowSize windowStep fuel emit start end_ wc).2.
Proof.
  intros Hemit Hlt Hcfg. unfold windows.
  destruct (Z.geb_spec (start + windowSize) end_) as [Hge|Hlt'].
  - simpl. constructor; [|constructor].
    unfold proper. destruct (Hemit start end_ wc) as [-> ->]. exact Hlt.
  - destruct Hcfg as [Hge|[Hsize Hstep]]; [lia|].
    apply (window_loop_proper windowSize); auto.
Qed.

Lemma windows_more_fuel fuel k emit start end_ wc :
  (windows windowSize windowStep fuel emit start end_ wc).1.1 = Finished ->
  windows windowSize windowStep (fuel + k) emit start end_ wc =
  windows windowSize windowStep fuel emit start end_ wc.
Proof.
  unfold windows. destruct (start + windowSize >=? end_); [reflexivity|].
  apply window_loop_more_fuel.
Qed.

Lemma tile_line_more_fuel fuel k st b :
  (tile_line windowSize windowStep fuel st b).1 = Finished ->
  tile_line windowSize windowStep (fuel + k) st b =
  tile_line windowSize windowStep fuel st b.
Proof.
  unfold tile_line. destruct (parse_name b) as [[name fn]|e]; [|reflexivity].
  cbv zeta. destruct (first_count _ _) as [m wc].
  intros Hfin. rewrite windows_more_fuel; [reflexivity|].
  destruct (windows _ _ _ _ _ _ _) as [[s wc'] rows].
  destruct s; simpl in *; congruence.
Qed.

(** A run that finished does the same with more fuel. *)
Lemma tile_lines_more_fuel fuel k lines st :
  (tile_lines windowSize windowStep fuel st lines).1 = Finished ->
  tile_lines windowSize windowStep (fuel + k) st lines =
  tile_lines windowSize windowStep fuel st lines.
Proof.
  revert st. induction lines as [|[rest|b] lines IH]; intros st Hfin.
  - reflexivity.
  - simpl in *. apply IH, Hfin.
  - simpl in *.
    destruct (tile_line windowSize windowStep fuel st b) as [s st'] eqn:Hline.
    destruct s.
    + rewrite tile_line_more_fuel, Hline by (rewrite Hline; reflexivity).
      apply IH, Hfin.
    + discriminate Hfin.
    + discriminate Hfin.
Qed.

(** The windows of an interval longer than a window, against the rule
    of the specification. *)
Lemma windows_against_spec fuel emit start end_ wc :
  (forall p1 p2 c, w_start (emit p1 p2 c) = p1 /\ w_end (emit p1 p2 c) = p2) ->
  0 < windowStep -> start + windowSize < end_ ->
  (Z.to_nat (end_ - (start + windowSize)) <= fuel)%nat ->
  intervals (windows windowSize windowStep fuel emit start end_ wc).2 =
    if decide ((end_ - (start + windowSize)) mod windowStep = 0)
    then removelast (spec_windows fuel windowStep end_ start (start + windowSize))
    else spec_windows fuel windowStep end_ start (start + windowSize).
Proof.
  intros Hemit Hstep Hlt Hfuel. unfold windows.
  destruct (Z.geb_spec (start + windowSize) end_); [lia|].
  apply window_loop_against_spec; assumption.
Qed.

(** The counters of the rows of one interval are consecutive from the
    counter the line starts with. *)
Lemma windows_counters fuel emit start end_ wc :
  (forall p1 p2 c, w_count (emit p1 p2 c) = c) ->
  let r := windows windowSize windowStep fuel emit start end_ wc in
  counters r.2 = seqZ wc (Z.of_nat (length r.2)) /\
  (r.1.1 = Finished -> r.1.2 = wc + Z.of_nat (length r.2)).
Proof.
  intros Hemit. cbv zeta. unfold windows.
  destruct (start + windowSize >=? end_).
  - simpl. rewrite Hemit. split; [|intros; lia].
    change (Z.of_nat 1) with 1. rewrite seqZ_cons by lia. simpl Z.pred.
    rewrite seqZ_nil by lia. reflexivity.
  - pose proof (window_loop_counters windowStep emit fuel end_ start
                  (start + windowSize) wc Hemit) as H.
    destruct (window_loop _ _ _ _ _ _ _) as [[s wc'] rows]. exact H.
Qed.

(** A well-formed line that is processed to its end: its rows carry
    consecutive counters from the first counter of the line, and the map
    then holds the counter after the last one, to which the next line of
    the same name adds one more. *)
Lemma tile_line_counters fuel st b name fn :
  parse_name b = Ok (name, fn) ->
  (tile_line windowSize windowStep fuel st b).1 = Finished ->
  let name0 := nth 0 name EmptyString in
  let wc := (first_count (windowidMap st) name0).2 in
  let rows := line_rows windowSize windowStep fuel st b in
  let st' := (tile_line windowSize windowStep fuel st b).2 in
  counters rows = seqZ wc (Z.of_nat (length rows)) /\
  windowidMap st' !! name0 = Some (wc + Z.of_nat (length rows)) /\
  (first_count (windowidMap st') name0).2 = wc + Z.of_nat (length rows) + 1.
Proof.
  intros Hp Hfin. cbv zeta.
  rewrite (line_rows_parsed fuel st b name fn Hp).
  assert (Hc : forall p1 p2 c,
             w_count (emit_row b name (nth 0 name EmptyString)
                        (nth 3 name EmptyString) fn p1 p2 c) = c) by reflexivity.
  pose proof (windows_counters fuel _ (start b) (stop b)
                (first_count (windowidMap st) (nth 0 name EmptyString)).2 Hc) as Hw.
  cbv zeta in Hw. revert Hfin Hw. unfold tile_line. rewrite Hp. cbv zeta.
  destruct (first_count _ _) as [m wc]. simpl snd.
  destruct (windows _ _ _ _ _ _ _) as [[s wc'] rows].
  destruct s; simpl; try discriminate.
  intros _ [Hcount Hwc]. specialize (Hwc eq_refl). subst wc'.
  split; [exact Hcount|].
  assert (Hm : <[nth 0 name EmptyString := wc + Z.of_nat (length rows)]> m
                 !! nth 0 name EmptyString = Some (wc + Z.of_nat (length rows)))
    by apply lookup_insert_eq.
  split; [exact Hm|]. unfold first_count. rewrite Hm. reflexivity.
Qed.

End Lines.

(** C7: for an interval [start, end) with start + windowSize >= end,
    slidingWindow writes exactly one window, [start, end): the line is
    processed to the end and the output grows by one row with these
    bounds (as for start = 0, end = 30 and windowSize = 50). *)
Theorem slidingWindow_single_window windowSize windowStep fuel st b p :
  parse_name b = Ok p ->
  start b + windowSize >= stop b ->
  (tile_line windowSize windowStep fuel st b).1 = Finished /\
  exists r,
    fOutput (tile_line windowSize windowStep fuel st b).2 = fOutput st ++ [r] /\
    w_start r = start b /\ w_end r = stop b.
Proof.
  intros Hp Hge. destruct p as [name fn].
  destruct (tile_line_parsed windowSize windowStep fuel st b name fn Hp) as [Hs Hout].
  rewrite windows_single in Hs, Hout by assumption.
  split; [exact Hs|].
  eexists. split; [exact Hout|]. split; reflexivity.
Qed.

Lemma slidingWindow_single_window_witness :
  (tile_line 50 20 0 initial (example_line 0 30)).1 = Finished /\
  exists r,
    fOutput (tile_line 50 20 0 initial (example_line 0 30)).2 = fOutput initial ++ [r] /\
    w_start r = start (example_line 0 30) /\ w_end r = stop (example_line 0 30).
Proof.
  eapply (slidingWindow_single_window 50 20 0 initial (example_line 0 30)).
  - reflexivity.
  - simpl. lia.
Defined.

(** C10, amended: for a line with start < end, every row written for
    it has its start strictly below its end, provided the interval is a
    single window (start + windowSize >= end, whatever the step) or
    0 < windowSize and windowStep <= windowSize. This holds for the rows
    written so far at any point of the loop. *)
Theorem slidingWindow_rows_proper windowSize windowStep fuel st b :
  start b < stop b ->
  start b + windowSize >= stop b \/ (0 < windowSize /\ windowStep <= windowSize) ->
  Forall proper (line_rows windowSize windowStep fuel st b).
Proof.
  intros Hlt Hcfg. destruct (parse_name b) as [[name fn]|e] eqn:Hp.
  - rewrite (line_rows_parsed _ _ _ _ _ _ _ Hp).
    apply windows_proper; auto.
  - rewrite (line_rows_malformed _ _ _ _ _ _ Hp). constructor.
Qed.

Lemma slidingWindow_rows_proper_witness :
  Forall proper (line_rows 50 20 10 initial (example_line 100 215)).
Proof.
  apply (slidingWindow_rows_proper 50 20 10 initial (example_line 100 215)).
  - simpl. lia.
  - right. lia.
Defined.

(** C10 as stated fails: with windowStep = 20 <= windowSize = 50, the
    line with start = end = 5 is written as the empty window [5, 5). *)
Lemma slidingWindow_empty_window :
  20 <= 50 /\
  intervals (line_rows 50 20 10 initial (example_line 5 5)) = [(5, 5)] /\
  ~ Forall proper (line_rows 50 20 10 initial (example_line 5 5)).
Proof.
  split; [lia|]. split; [vm_compute; reflexivity|].
  intros H. apply Forall_cons_1 in H.
  destruct H as [H _]. vm_compute in H. discriminate H.
Qed.

(** A window size of 0 with the step 0 <= 0 gives empty windows as well,
    on a line with start < end: the first rows of [100, 210) are
    [100, 100). *)
Lemma slidingWindow_zero_width_windows :
  0 <= 0 /\
  intervals (line_rows 0 0 2 initial (example_line 100 210)) = [(100, 100); (100, 100)] /\
  ~ Forall proper (line_rows 0 0 2 initial (example_line 100 210)).
Proof.
  split; [lia|]. split; [vm_compute; reflexivity|].
  intros H. apply Forall_cons_1 in H.
  destruct H as [H _]. vm_compute in H. discriminate H.
Qed.

(** The text of the first row written for the line [100, 210) of
    "geneA". *)
Lemma row_text_example :
  row_text <$> take 1 (line_rows 50 20 10 initial (example_line 100 210)) =
  [String.concat (String "009"%char EmptyString)
     ["chr1"; "100"; "150";
      "geneA@ENSG01@protein_coding@exon@3/7@geneA:exon0003W00001@1"; "0"; "+"]
   +:+ String "010"%char EmptyString]%string.
Proof. vm_compute. reflexivity. Qed.

(** C1 at its own example: for start = 100, end = 210, windowSize = 50
    and windowStep = 20 the loop ends after [140, 190); the window
    [160, 210) is not written and the positions from 190 on lie in no
    window. *)
Theorem slidingWindow_drops_final_window fuel :
  let r := slidingWindow 50 20 (3 + fuel) [Data (example_line 100 210)] in
  r.1 = Finished /\
  intervals (fOutput r.2) = [(100, 150); (120, 170); (140, 190)] /\
  ~ covered (fOutput r.2) 200.
Proof.
  cbv zeta. unfold slidingWindow.
  rewrite tile_lines_more_fuel by (vm_compute; reflexivity).
  split; [vm_compute; reflexivity|]. split; [vm_compute; reflexivity|].
  unfold covered. rewrite Exists_exists. intros [r [Hin Hr]].
  assert (E : Forall (fun iv : Z * Z => iv.2 <= 190)
                (intervals (fOutput (tile_lines 50 20 3 initial
                                       [Data (example_line 100 210)]).2))).
  { replace (intervals _) with [(100, 150); (120, 170); (140, 190)]
      by (vm_compute; reflexivity).
    repeat constructor; simpl; lia. }
  unfold intervals in E. rewrite Forall_map, Forall_forall in E.
  specialize (E r Hin). simpl in E. lia.
Qed.

(** C2 at two one-window lines of the same name: the first window of
    "geneA" carries the counter 1 and its second window the counter 3. *)
Theorem slidingWindow_counter_skips fuel :
  let r := slidingWindow 50 20 fuel
             [Data (example_line 0 30); Data (example_line 40 70)] in
  r.1 = Finished /\
  map name0_of (fOutput r.2) = ["geneA"; "geneA"]%string /\
  counters (fOutput r.2) = [1; 3].
Proof.
  cbv zeta. repeat split; vm_compute; reflexivity.
Qed.

End TilerFacts.

(** ** Properties of [GeneInfo] *)

Module GffFacts.

Import Gff.

Lemma filter_ext_elem {A} (P Q : A -> Prop)
    `{!forall x, Decision (P x)} `{!forall x, Decision (Q x)} (l : list A) :
  (forall x, x ∈ l -> (P x <-> Q x)) -> filter P l = filter Q l.
Proof.
  induction l as [|a l IH]; intros Hext; [reflexivity|].
  rewrite !filter_cons.
  assert (Ha : P a <-> Q a) by (apply Hext; left).
  rewrite IH by (intros x Hx; apply Hext; right; exact Hx).
  destruct (decide (P a)), (decide (Q a)); tauto.
Qed.

Section Collect.

Variable gid : string.
Variable geneDefinitions : list string.

Lemma collect_snoc fs f :
  collect gid geneDefinitions (fs ++ [f]) =
  add_feature (collect gid geneDefinitions fs) f.
Proof. unfold collect. rewrite fold_left_app. reflexivity. Qed.

Lemma collect_featList fs : _featList (collect gid geneDefinitions fs) = fs.
Proof.
  induction fs as [|f fs IH] using rev_ind; [reflexivity|].
  rewrite collect_snoc. simpl. rewrite IH. reflexivity.
Qed.

Lemma collect_id fs : id (collect gid geneDefinitions fs) = gid.
Proof.
  induction fs as [|f fs IH] using rev_ind; [reflexivity|].
  rewrite collect_snoc. exact IH.
Qed.

Lemma collect_geneDefinitions fs :
  _geneDefinitions (collect gid geneDefinitions fs) = list_to_set geneDefinitions.
Proof.
  induction fs as [|f fs IH] using rev_ind; [reflexivity|].
  rewrite collect_snoc. exact IH.
Qed.

Lemma positions_snoc t fs f :
  positions t (fs ++ [f]) =
  positions t fs ++ (if decide (type f = t) then [length fs] else []).
Proof.
  unfold positions. rewrite length_app. simpl length.
  rewrite seq_app, filter_app. simpl seq. f_equal.
  - apply filter_ext_elem. intros i Hi.
    apply elem_of_seq in Hi. rewrite lookup_app_l by lia. reflexivity.
  - rewrite filter_cons, filter_nil. simpl.
    rewrite lookup_app_r by lia. rewrite Nat.sub_diag. simpl.
    destruct (decide (Some (type f) = Some t)) as [E|E],
             (decide (type f = t)) as [E'|E']; congruence.
Qed.

Lemma occurrences_snoc t fs f :
  occurrences t (fs ++ [f]) =
  occurrences t fs ++ (if decide (type f = t) then [f] else []).
Proof.
  unfold occurrences. rewrite filter_app, filter_cons, filter_nil. reflexivity.
Qed.

(** The positions of a type point at its occurrences, in order. *)
Lemma positions_occurrences t fs :
  Forall2 (fun i f => fs !! i = Some f) (positions t fs) (occurrences t fs).
Proof.
  induction fs as [|f fs IH] using rev_ind; [constructor|].
  rewrite positions_snoc, occurrences_snoc.
  apply Forall2_app.
  - eapply Forall2_impl; [exact IH|].
    intros i g Hi. simpl in Hi. rewrite lookup_app_l; [exact Hi|].
    eapply lookup_lt_Some, Hi.
  - destruct (decide (type f = t)); constructor; [|constructor].
    rewrite lookup_app_r by lia. rewrite Nat.sub_diag. reflexivity.
Qed.

Lemma elem_of_positions t fs i :
  i ∈ positions t fs <-> exists f, fs !! i = Some f /\ type f = t.
Proof.
  unfold positions. rewrite list_elem_of_filter, elem_of_seq. split.
  - intros [H _]. destruct (fs !! i) as [f|]; [|discriminate].
    exists f. split; [reflexivity|]. simpl in H. congruence.
  - intros [f [Hf Ht]]. rewrite Hf. simpl. split; [congruence|].
    apply lookup_lt_Some in Hf. lia.
Qed.

Lemma positions_sorted t fs : StronglySorted lt (positions t fs).
Proof.
  induction fs as [|f fs IH] using rev_ind; [constructor|].
  rewrite positions_snoc. destruct (decide (type f = t)).
  - apply StronglySorted_app_2; [|exact IH|repeat constructor].
    intros i j Hi Hj. apply list_elem_of_singleton in Hj. subst j.
      apply elem_of_positions in Hi. destruct Hi as [g [Hg _]].
      eapply lookup_lt_Some, Hg.
  - rewrite app_nil_r. exact IH.
Qed.

Lemma positions_nil t fs :
  positions t fs = [] <-> forall f, f ∈ fs -> type f <> t.
Proof.
  split.
  - intros H f Hf Ht. apply list_elem_of_lookup in Hf. destruct Hf as [i Hi].
    assert (Hin : i ∈ positions t fs) by (apply elem_of_positions; eauto).
    rewrite H in Hin. inversion Hin.
  - intros H. destruct (positions t fs) as [|i l] eqn:E; [reflexivity|].
    assert (Hin : i ∈ positions t fs) by (rewrite E; left).
    apply elem_of_positions in Hin. destruct Hin as [f [Hf Ht]].
    exfalso. eapply H; [|exact Ht]. eapply list_elem_of_lookup_2, Hf.
Qed.

(** The entry of a type in [_typeMap]: its positions, and no entry
    for a type without features. *)
Lemma collect_typeMap fs t :
  _typeMap (collect gid geneDefinitions fs) !! t =
    match positions t fs with
    | [] => None
    | l => Some l
    end.
Proof.
  induction fs as [|f fs IH] using rev_ind.
  - simpl. apply lookup_empty.
  - rewrite collect_snoc, positions_snoc. unfold add_feature. simpl _typeMap.
    rewrite collect_featList, length_app. simpl length.
    replace (length fs + 1 - 1)%nat with (length fs) by lia.
    destruct (decide (type f = t)) as [E|E].
    + subst t. rewrite IH.
      destruct (positions (type f) fs) as [|i l]; rewrite lookup_insert_eq; reflexivity.
    + rewrite app_nil_r.
      destruct (_typeMap (collect gid geneDefinitions fs) !! type f);
        rewrite lookup_insert_ne by assumption; exact IH.
Qed.

Lemma collect_dom fs :
  dom (_typeMap (collect gid geneDefinitions fs)) = list_to_set (type <$> fs).
Proof.
  apply set_eq. intros t.
  rewrite elem_of_dom, collect_typeMap, elem_of_list_to_set, list_elem_of_fmap.
  split.
  - intros Hs. destruct (positions t fs) as [|i l] eqn:E.
    + destruct Hs as [? Hs]; discriminate Hs.
    + assert (Hin : i ∈ positions t fs) by (rewrite E; left).
      apply elem_of_positions in Hin. destruct Hin as [f [Hf Ht]].
      exists f. split; [auto|]. eapply list_elem_of_lookup_2, Hf.
  - intros [f [Ht Hf]]. destruct (positions t fs) as [|i l] eqn:E; [|eauto].
    exfalso. eapply (proj1 (positions_nil t fs) E); eauto.
Qed.

End Collect.

(** The loop of [_checkGeneFeature] over positions that point at the
    features [occ]. *)
Lemma gather_positions fs inds occ (S E : gset Z) (T : gset string) :
  Forall2 (fun i f => fs !! i = Some f) inds occ ->
  gather fs inds S E T =
    Ok (S ∪ list_to_set ((fun f => start (iv f)) <$> occ),
        E ∪ list_to_set ((fun f => end_ (iv f)) <$> occ),
        T ∪ list_to_set ((fun f => strand (iv f)) <$> occ)).
Proof.
  intros H. revert S E T.
  induction H as [|i f inds occ Hi _ IH]; intros S E T.
  - simpl. rewrite !union_empty_r_L. reflexivity.
  - simpl. unfold index. rewrite Hi. simpl. rewrite IH.
    rewrite !(assoc_L (∪)). reflexivity.
Qed.

Lemma gather_from_empty fs inds occ :
  Forall2 (fun i f => fs !! i = Some f) inds occ ->
  gather fs inds ∅ ∅ ∅ =
    Ok (list_to_set ((fun f => start (iv f)) <$> occ),
        list_to_set ((fun f => end_ (iv f)) <$> occ),
        list_to_set ((fun f => strand (iv f)) <$> occ)).
Proof.
  intros H. rewrite (gather_positions _ _ _ _ _ _ H).
  rewrite !(union_empty_l_L (C:=gset Z)), (union_empty_l_L (C:=gset string)).
  reflexivity.
Qed.

(** A set built from the values of a list has one element exactly when
    the values agree. *)
Lemma size_values_1 {A B} `{Countable B} (g : A -> B) (f : A) (rest : list A) :
  size (list_to_set (g <$> f :: rest) : gset B) = 1%nat <->
  forall x, x ∈ rest -> g x = g f.
Proof.
  split.
  - intros Hsize x Hx.
    apply (size_singleton_inv _ _ _ Hsize);
      rewrite elem_of_list_to_set, list_elem_of_fmap.
    + exists x. split; [reflexivity|]. right. exact Hx.
    + exists f. split; [reflexivity|]. left.
  - intros Hall.
    assert (E : (list_to_set (g <$> f :: rest) : gset B) = {[g f]}).
    { apply set_eq. intros y.
      rewrite elem_of_list_to_set, list_elem_of_fmap, elem_of_singleton. split.
      - intros [x [-> Hx]]. apply elem_of_cons in Hx.
        destruct Hx as [->|Hx]; [reflexivity|apply Hall, Hx].
      - intros ->. exists f. split; [reflexivity|left]. }
    rewrite E. apply size_singleton.
Qed.

Lemma same_triples_head f rest :
  same_triples (f :: rest) <-> forall x, x ∈ rest -> triple x = triple f.
Proof.
  unfold same_triples. split.
  - intros H x Hx. apply H; [right; exact Hx|left].
  - intros H a b Ha Hb.
    apply elem_of_cons in Ha. apply elem_of_cons in Hb.
    destruct Ha as [->|Ha], Hb as [->|Hb]; auto.
    + symmetry. auto.
    + rewrite (H a Ha), (H b Hb). reflexivity.
Qed.

Lemma checkGeneFeature_collect gid defs fs inds f rest :
  Forall2 (fun i g => fs !! i = Some g) inds (f :: rest) ->
  exists b, _checkGeneFeature (collect gid defs fs) inds = Ok b /\
            (b = true <-> same_triples (f :: rest)).
Proof.
  intros H. unfold _checkGeneFeature.
  rewrite collect_featList, (gather_from_empty _ _ _ H). unfold bind.
  match goal with |- context [if ?c then _ else _] => exists c end.
  split; [destruct (_ && _); reflexivity|].
  rewrite !andb_true_iff, !Nat.eqb_eq.
  rewrite (size_values_1 (fun g => start (iv g)) f rest).
  rewrite (size_values_1 (fun g => end_ (iv g)) f rest).
  rewrite (size_values_1 (fun g => strand (iv g)) f rest).
  rewrite same_triples_head. unfold triple. split.
  - intros [[H1 H2] H3] x Hx. rewrite (H1 x Hx), (H2 x Hx), (H3 x Hx). reflexivity.
  - intros Hall. repeat split; intros x Hx; specialize (Hall x Hx); congruence.
Qed.

Section Gene.

Variable gid : string.
Variable defs : list string.
Variable fs : list Feature.

Lemma gene_types_collect :
  _geneDefinitions (collect gid defs fs) ∩ dom (_typeMap (collect gid defs fs)) =
  gene_types defs fs.
Proof. rewrite collect_geneDefinitions, collect_dom. reflexivity. Qed.

Lemma gene_no_definition :
  size (gene_types defs fs) = 0%nat ->
  gene (collect gid defs fs) = Ok (None, [msg_no_definition gid]).
Proof.
  intros H. unfold gene. rewrite gene_types_collect, collect_id.
  change (length (elements (gene_types defs fs))) with (size (gene_types defs fs)).
  rewrite H. reflexivity.
Qed.

Lemma gene_multiple_definitions :
  (1 < size (gene_types defs fs))%nat ->
  gene (collect gid defs fs) = Ok (None, [msg_multiple_definitions gid]).
Proof.
  intros H. unfold gene. rewrite gene_types_collect, collect_id.
  change (length (elements (gene_types defs fs))) with (size (gene_types defs fs)).
  destruct (Nat.eqb_spec (size (gene_types defs fs)) 0); [lia|].
  destruct (Nat.ltb_spec 1 (size (gene_types defs fs))); [reflexivity|lia].
Qed.

(** With one gene-defining type [t] present, [gene] looks at the
    occurrences of [t]. *)
Lemma gene_one_definition t f rest :
  gene_types defs fs = {[t]} ->
  occurrences t fs = f :: rest ->
  (rest = [] -> gene (collect gid defs fs) = Ok (Some f, [])) /\
  (rest <> [] -> same_triples (f :: rest) ->
     gene (collect gid defs fs) = Ok (Some f, [msg_same_coordinates gid])) /\
  (rest <> [] -> ~ same_triples (f :: rest) ->
     gene (collect gid defs fs) = Ok (None, [msg_multiple_features gid])).
Proof.
  intros Ht Hocc.
  pose proof (positions_occurrences t fs) as Hpos. rewrite Hocc in Hpos.
  destruct (positions t fs) as [|i inds] eqn:Epos; [inversion Hpos|].
  assert (Hi : fs !! i = Some f) by (inversion Hpos; assumption).
  assert (Hlen : length inds = length rest).
  { apply Forall2_length in Hpos. simpl in Hpos. lia. }
  assert (Hgene : gene (collect gid defs fs) =
            if (1 <? length (i :: inds))%nat then
              do same <~ _checkGeneFeature (collect gid defs fs) (i :: inds);
              if same then Ok (Some f, [msg_same_coordinates gid])
              else Ok (None, [msg_multiple_features gid])
            else Ok (Some f, [])).
  { unfold gene. rewrite gene_types_collect, collect_id, Ht, elements_singleton.
    simpl length. simpl Nat.eqb. simpl Nat.ltb at 1. cbv iota.
    unfold index at 1. simpl lookup. unfold bind at 1.
    rewrite collect_typeMap, Epos. unfold bind at 1.
    rewrite collect_featList.
    assert (Hidx : index fs i = Ok f) by (unfold index; rewrite Hi; reflexivity).
    change ((1 <? 1)%nat) with false. cbv iota.
    change (index (i :: inds) 0) with (Ok i). simpl length.
    destruct (1 <? S (length inds))%nat.
    - destruct (_checkGeneFeature _ _) as [[|]|e]; cbn [bind];
        rewrite ?Hidx; reflexivity.
    - cbn [bind]. rewrite Hidx. reflexivity. }
  rewrite Hgene. clear Hgene.
  destruct (checkGeneFeature_collect gid defs fs (i :: inds) f rest Hpos)
    as [b [Hb Hsame]].
  rewrite Hb. unfold bind.
  destruct rest as [|g rest]; destruct inds as [|j inds]; try discriminate Hlen.
  - split; [reflexivity|]. split; intros; congruence.
  - simpl. split; [intros; discriminate|]. split; intros _ Hs.
    + rewrite (proj2 Hsame Hs). reflexivity.
    + destruct b; [|reflexivity]. exfalso. apply Hs, Hsame. reflexivity.
Qed.

End Gene.

(** C9: after any sequence of add_feature calls the feature list is the
    sequence of the features added, in order, and it is what [features]
    returns; the entry of a type t in the type-index map is the list of
    the positions of the features of type t, which is strictly
    increasing and contains exactly the positions i whose feature has
    type t (a type without features has no entry). *)
Theorem add_feature_invariant gid defs fs t :
  let self := collect gid defs fs in
  features self = fs /\
  _typeMap self !! t =
    (match positions t fs with [] => None | l => Some l end) /\
  StronglySorted lt (positions t fs) /\
  (forall i, i ∈ positions t fs <-> exists f, fs !! i = Some f /\ type f = t) /\
  (forall f, features (add_feature self f) = fs ++ [f]) /\
  (forall f, add_feature self f = collect gid defs (fs ++ [f])).
Proof.
  cbv zeta. split; [apply collect_featList|].
  split; [apply collect_typeMap|].
  split; [apply positions_sorted|].
  split; [apply elem_of_positions|].
  split.
  - intros f. rewrite <- collect_snoc. apply collect_featList.
  - intros f. symmetry. apply collect_snoc.
Qed.

(** C3: [gene] returns one feature or None. With no gene-defining type
    among the types present, or more than one, it returns None. With
    exactly one, t: a single occurrence of t is returned; of several
    occurrences the first is returned, with a warning, when all have
    the same (start, end, strand), and None is returned when they
    differ. *)
Theorem gene_resolution gid defs fs :
  let self := collect gid defs fs in
  (size (gene_types defs fs) = 0%nat ->
     gene self = Ok (None, [msg_no_definition gid])) /\
  ((1 < size (gene_types defs fs))%nat ->
     gene self = Ok (None, [msg_multiple_definitions gid])) /\
  (forall t f rest,
     gene_types defs fs = {[t]} ->
     occurrences t fs = f :: rest ->
     (rest = [] -> gene self = Ok (Some f, [])) /\
     (rest <> [] -> same_triples (f :: rest) ->
        gene self = Ok (Some f, [msg_same_coordinates gid])) /\
     (rest <> [] -> ~ same_triples (f :: rest) ->
        gene self = Ok (None, [msg_multiple_features gid]))).
Proof.
  cbv zeta. split; [apply gene_no_definition|].
  split; [apply gene_multiple_definitions|].
  intros t f rest. apply gene_one_definition.
Qed.

Lemma gene_resolution_witness :
  gene (collect "g1" default_geneDefinitions [Examples.exon1]) =
    Ok (None, [msg_no_definition "g1"]) /\
  gene (collect "g1" default_geneDefinitions [Examples.gene1; Examples.trna1]) =
    Ok (None, [msg_multiple_definitions "g1"]) /\
  gene (collect "g1" default_geneDefinitions [Examples.gene1; Examples.exon1]) =
    Ok (Some Examples.gene1, []) /\
  gene (collect "g1" default_geneDefinitions
          [Examples.gene1; Examples.exon1; Examples.gene1_copy]) =
    Ok (Some Examples.gene1, [msg_same_coordinates "g1"]) /\
  gene (collect "g1" default_geneDefinitions [Examples.gene1; Examples.gene1_moved]) =
    Ok (None, [msg_multiple_features "g1"]).
Proof.
  split.
  { apply (proj1 (gene_resolution "g1" default_geneDefinitions [Examples.exon1])).
    vm_compute. reflexivity. }
  split.
  { apply (proj1 (proj2 (gene_resolution "g1" default_geneDefinitions
                           [Examples.gene1; Examples.trna1]))).
    vm_compute. lia. }
  split.
  { destruct (proj2 (proj2 (gene_resolution "g1" default_geneDefinitions
                              [Examples.gene1; Examples.exon1])) "gene"%string
                Examples.gene1 []) as [H _];
      [vm_compute; reflexivity|vm_compute; reflexivity|].
    apply H. reflexivity. }
  split.
  { destruct (proj2 (proj2 (gene_resolution "g1" default_geneDefinitions
                              [Examples.gene1; Examples.exon1; Examples.gene1_copy]))
                "gene"%string Examples.gene1 [Examples.gene1_copy]) as [_ [H _]];
      [vm_compute; reflexivity|vm_compute; reflexivity|].
    apply H; [discriminate|].
    intros f g Hf Hg.
    apply elem_of_cons in Hf. apply elem_of_cons in Hg.
    destruct Hf as [->|Hf]; [|apply list_elem_of_singleton in Hf; subst f];
      (destruct Hg as [->|Hg]; [|apply list_elem_of_singleton in Hg; subst g]);
      reflexivity. }
  destruct (proj2 (proj2 (gene_resolution "g1" default_geneDefinitions
                            [Examples.gene1; Examples.gene1_moved]))
              "gene"%string Examples.gene1 [Examples.gene1_moved]) as [_ [_ H]];
    [vm_compute; reflexivity|vm_compute; reflexivity|].
  apply H; [discriminate|].
  intros Hs. specialize (Hs Examples.gene1 Examples.gene1_moved).
  assert (E : triple Examples.gene1 = triple Examples.gene1_moved).
  { apply Hs; [left|right; left]. }
  discriminate E.
Defined.

End GffFacts.

(** ** Properties of the insertion-ordered dictionaries *)

Module OdictFacts.

Section Odict.

Context {V : Type}.
Implicit Types (d : odict V) (k : string) (v : V).

Lemma od_get_set_eq d k v : od_get (od_set d k v) k = Some v.
Proof.
  induction d as [|[k' v'] d IH]; simpl.
  - rewrite String.eqb_refl. reflexivity.
  - destruct (String.eqb_spec k' k) as [E|E]; simpl.
    + subst. rewrite String.eqb_refl. reflexivity.
    + destruct (String.eqb_spec k' k); [contradiction|exact IH].
Qed.

Lemma od_get_set_ne d k k' v :
  k <> k' -> od_get (od_set d k v) k' = od_get d k'.
Proof.
  intros Hne. induction d as [|[k0 v0] d IH]; simpl.
  - destruct (String.eqb_spec k k'); [contradiction|reflexivity].
  - destruct (String.eqb_spec k0 k) as [E|E]; simpl.
    + subst k0. destruct (String.eqb_spec k k'); [contradiction|reflexivity].
    + destruct (String.eqb_spec k0 k'); [reflexivity|exact IH].
Qed.

Lemma od_get_None d k : od_get d k = None <-> k ∉ od_keys d.
Proof.
  induction d as [|[k0 v0] d IH]; simpl.
  - split; [intros _; apply not_elem_of_nil|reflexivity].
  - rewrite not_elem_of_cons. destruct (String.eqb_spec k0 k) as [E|E].
    + subst. split; [discriminate|intros [H _]; contradiction].
    + rewrite IH. split; [intros H; split; [congruence|exact H]|intros [_ H]; exact H].
Qed.

Lemma od_get_elem_of d k v : od_get d k = Some v -> (k, v) ∈ d.
Proof.
  induction d as [|[k0 v0] d IH]; simpl; [discriminate|].
  destruct (String.eqb_spec k0 k) as [E|E].
  - intros [= ->]. subst. left.
  - intros H. right. apply IH, H.
Qed.

(** Setting a key keeps the order of the keys; a new key goes last. *)
Lemma od_keys_set d k v :
  od_keys (od_set d k v) =
  if decide (k ∈ od_keys d) then od_keys d else od_keys d ++ [k].
Proof.
  unfold od_keys. induction d as [|[k0 v0] d IH]; simpl.
  - destruct (decide (k ∈ [])) as [H|H]; [inversion H|reflexivity].
  - destruct (String.eqb_spec k0 k) as [E|E]; simpl.
    + subst. destruct (decide (k ∈ k :: map fst d)) as [H|H]; [reflexivity|].
      exfalso. apply H. left.
    + rewrite IH.
      destruct (decide (k ∈ map fst d)) as [H|H];
        destruct (decide (k ∈ k0 :: map fst d)) as [H'|H']; try reflexivity.
      * exfalso. apply H'. right. exact H.
      * apply elem_of_cons in H'. destruct H' as [->|H']; contradiction.
Qed.

Lemma od_set_Forall (P : string * V -> Prop) d k v :
  Forall P d -> P (k, v) -> Forall P (od_set d k v).
Proof.
  intros Hd Hk. induction Hd as [|[k0 v0] d H0 Hd IH]; simpl.
  - constructor; [exact Hk|constructor].
  - destruct (String.eqb_spec k0 k) as [E|E].
    + constructor; [|exact Hd]. subst. exact Hk.
    + constructor; [exact H0|exact IH].
Qed.

Lemma od_keys_NoDup_set d k v : NoDup (od_keys d) -> NoDup (od_keys (od_set d k v)).
Proof.
  intros H. rewrite od_keys_set. destruct (decide (k ∈ od_keys d)); [exact H|].
  apply NoDup_app. split; [exact H|]. split.
  - intros x Hx Hx'. apply list_elem_of_singleton in Hx'. subst. contradiction.
  - apply NoDup_singleton.
Qed.

End Odict.

End OdictFacts.

(** ** Properties of the annotation processor *)

Module ClipFacts.

Import Gff Clip OdictFacts GffFacts.

Lemma subordinates_fold g subs :
  subordinates (fold_left Gene_add subs g) = subordinates g ++ subs /\
  feature (fold_left Gene_add subs g) = feature g.
Proof.
  revert g. induction subs as [|f subs IH]; intros g; simpl.
  - rewrite app_nil_r. split; reflexivity.
  - destruct (IH (Gene_add g f)) as [-> ->]. simpl.
    rewrite <- app_assoc. split; reflexivity.
Qed.

(** *** Sorted mode *)

Section Sorted.

Variable isGene : Feature -> bool.
Variable toBedDetailed : Gene -> list string.
Variable summary_add : GeneLengthSummary -> Gene -> GeneLengthSummary.
Variables splitExons_opt processGeneOnlyInformation_opt : bool.

Local Abbreviation loop :=
  (sorted_loop isGene toBedDetailed summary_add splitExons_opt
               processGeneOnlyInformation_opt).
Local Abbreviation finalize := (processGene toBedDetailed summary_add).
Local Abbreviation new_gene f :=
  (Gene_new f splitExons_opt processGeneOnlyInformation_opt).

Lemma sorted_loop_orphan st f gtf :
  isGene f = false ->
  loop None st (f :: gtf) = Raise (Exception msg_out_of_order).
Proof. intros H. simpl. rewrite H. reflexivity. Qed.

Lemma sorted_loop_append g st f gtf :
  isGene f = false ->
  loop (Some g) st (f :: gtf) = loop (Some (Gene_add g f)) st gtf.
Proof. intros H. simpl. rewrite H. reflexivity. Qed.

Lemma sorted_loop_gene slot st f gtf :
  isGene f = true ->
  loop slot st (f :: gtf) = loop (Some (new_gene f)) (finalize slot st) gtf.
Proof. intros H. simpl. rewrite H. reflexivity. Qed.

(** A run of subordinate features goes to the current gene. *)
Lemma sorted_loop_subordinates g st subs gtf :
  Forall (fun f => isGene f = false) subs ->
  loop (Some g) st (subs ++ gtf) = loop (Some (fold_left Gene_add subs g)) st gtf.
Proof.
  intros H. revert g. induction H as [|f subs Hf _ IH]; intros g; [reflexivity|].
  simpl app. rewrite sorted_loop_append by exact Hf. apply IH.
Qed.

(** A stream that starts with a gene-defining feature and never has
    a subordinate feature first is processed to the end. *)
Lemma sorted_loop_total g st gtf :
  exists r, loop (Some g) st gtf = Ok r.
Proof.
  revert g st. induction gtf as [|f gtf IH]; intros g st; simpl.
  - eauto.
  - destruct (isGene f); apply IH.
Qed.

End Sorted.

(** *** Unsorted mode, first pass *)

Section Grouping.

Variable geneId : string.

Local Abbreviation group := (group_features geneId).
Local Abbreviation of_gene gid := (features_of geneId gid).

Lemma group_features_snoc gtf f :
  group (gtf ++ [f]) = group_feature geneId (group gtf) f.
Proof. unfold group_features. rewrite fold_left_app. reflexivity. Qed.

Lemma features_of_snoc gid gtf f :
  of_gene gid (gtf ++ [f]) =
  of_gene gid gtf ++ (if decide (attr f !! geneId = Some gid) then [f] else []).
Proof. unfold features_of. rewrite filter_app, filter_cons, filter_nil. reflexivity. Qed.

(** The [GeneInfo] of a gene id holds the features that carry this
    id, in order; an id no feature carries has no entry. *)
Lemma group_features_get gtf gid :
  od_get (group gtf) gid =
    match of_gene gid gtf with
    | [] => None
    | fs => Some (collect gid default_geneDefinitions fs)
    end.
Proof.
  induction gtf as [|f gtf IH] using rev_ind; [reflexivity|].
  rewrite group_features_snoc, features_of_snoc. unfold group_feature.
  destruct (attr f !! geneId) as [g|] eqn:Hattr.
  - destruct (decide (g = gid)) as [->|Hne].
    + destruct (decide (Some gid = Some gid)) as [_|]; [|congruence].
      rewrite IH.
      destruct (of_gene gid gtf) as [|f0 fs0] eqn:Efs;
        rewrite od_get_set_eq; [reflexivity|].
      rewrite <- collect_snoc. reflexivity.
    + destruct (decide (Some g = Some gid)) as [E|_]; [congruence|].
      rewrite app_nil_r.
      destruct (od_get (group gtf) g); rewrite od_get_set_ne by exact Hne; exact IH.
  - destruct (decide (None = Some gid)) as [E|_]; [discriminate|].
    rewrite app_nil_r. exact IH.
Qed.

(** A feature without the gene-id attribute leaves the mapping as it
    is. *)
Lemma group_feature_dropped geneMap f :
  attr f !! geneId = None -> group_feature geneId geneMap f = geneMap.
Proof. intros H. unfold group_feature. rewrite H. reflexivity. Qed.

Lemma group_features_dropped gtf :
  group gtf = group (filter (fun f => is_Some (attr f !! geneId)) gtf).
Proof.
  induction gtf as [|f gtf IH] using rev_ind; [reflexivity|].
  rewrite filter_app, filter_cons, filter_nil.
  destruct (decide (is_Some (attr f !! geneId))) as [Hs|Hn].
  - rewrite !group_features_snoc, IH. reflexivity.
  - rewrite app_nil_r, group_features_snoc, group_feature_dropped; [exact IH|].
    destruct (attr f !! geneId); [exfalso; apply Hn; eauto|reflexivity].
Qed.

Lemma od_set_not_nil {V} (d : odict V) k v : od_set d k v <> [].
Proof. destruct d as [|[k' v'] d]; simpl; [|destruct (k' =? k)%string]; discriminate. Qed.

(** The mapping is empty exactly when no feature carries the gene-id
    attribute. *)
Lemma group_features_empty gtf :
  group gtf = [] <-> Forall (fun f => attr f !! geneId = None) gtf.
Proof.
  induction gtf as [|f gtf IH] using rev_ind.
  - split; [constructor|reflexivity].
  - rewrite group_features_snoc, Forall_app, Forall_singleton, <- IH.
    unfold group_feature. destruct (attr f !! geneId) as [g|].
    + split; [|intros [_ H]; discriminate H].
      destruct (od_get (group gtf) g); intros H; exfalso;
        eapply od_set_not_nil, H.
    + split; [intros H; split; [exact H|reflexivity]|intros [H _]; exact H].
Qed.

(** Every entry of the mapping is a [GeneInfo] fed by [add_feature]. *)
Lemma group_features_collected gtf :
  Forall (fun item => exists fs, item.2 = collect item.1 default_geneDefinitions fs)
         (group gtf).
Proof.
  induction gtf as [|f gtf IH] using rev_ind; [constructor|].
  rewrite group_features_snoc. unfold group_feature.
  destruct (attr f !! geneId) as [g|]; [|exact IH].
  destruct (od_get (group gtf) g) as [geneObj|] eqn:Hget.
  - apply od_set_Forall; [exact IH|].
    apply od_get_elem_of in Hget.
    rewrite Forall_forall in IH. destruct (IH _ Hget) as [fs Hfs].
    simpl in *. exists (fs ++ [f]). rewrite Hfs, collect_snoc. reflexivity.
  - apply od_set_Forall; [exact IH|]. exists [f]. reflexivity.
Qed.

End Grouping.

(** *** Unsorted mode, second pass *)

Section Emitting.

Variable toBedDetailed : Gene -> list string.
Variable summary_add : GeneLengthSummary -> Gene -> GeneLengthSummary.
Variable geneDefinitions : list string.
Variables splitExons_opt processGeneOnlyInformation_opt : bool.

Local Abbreviation finalize := (processGene toBedDetailed summary_add).
Local Abbreviation pass2 :=
  (emit_genes toBedDetailed summary_add geneDefinitions splitExons_opt
              processGeneOnlyInformation_opt).
Local Abbreviation new_gene f :=
  (Gene_new f splitExons_opt processGeneOnlyInformation_opt).

Lemma emit_genes_skip st pre k geneObj w post :
  gene geneObj = Ok (None, w) ->
  pass2 st (pre ++ (k, geneObj) :: post) = pass2 st (pre ++ post).
Proof.
  intros H. revert st. induction pre as [|[k0 g0] pre IH]; intros st; simpl.
  - rewrite H. reflexivity.
  - destruct (gene g0) as [[[_gene|] w0]|e]; simpl; [apply IH|apply IH|reflexivity].
Qed.

Lemma emit_genes_resolved st k geneObj _gene w items :
  gene geneObj = Ok (Some _gene, w) ->
  pass2 st ((k, geneObj) :: items) =
  pass2 (finalize (Some (build_gene geneDefinitions splitExons_opt
                           processGeneOnlyInformation_opt _gene geneObj)) st) items.
Proof. intros H. simpl. rewrite H. reflexivity. Qed.

Lemma build_gene_fields _gene geneObj :
  let g := build_gene geneDefinitions splitExons_opt
             processGeneOnlyInformation_opt _gene geneObj in
  feature g = _gene /\
  subordinates g =
    filter (fun f => type f ∉ (list_to_set geneDefinitions : gset string))
           (features geneObj).
Proof.
  cbv zeta. unfold build_gene.
  destruct (subordinates_fold (new_gene _gene)
              (filter (fun f => type f ∉ (list_to_set geneDefinitions : gset string))
                      (features geneObj))) as [-> ->].
  split; reflexivity.
Qed.

Lemma unresolved_gene gid defs fs :
  unresolved defs fs -> exists w, gene (collect gid defs fs) = Ok (None, w).
Proof.
  intros [H|[H|[t [f [rest [Ht [Hocc [Hrest Hdiff]]]]]]]].
  - eexists. apply gene_no_definition, H.
  - eexists. apply gene_multiple_definitions, H.
  - eexists. eapply gene_one_definition; eauto.
Qed.

(** [GeneInfo.gene] returns on every [GeneInfo] fed by [add_feature]. *)
Lemma gene_collect_total gid defs fs :
  exists r, gene (collect gid defs fs) = Ok r.
Proof.
  destruct (size (gene_types defs fs)) as [|[|n]] eqn:Hsize.
  - eexists. apply gene_no_definition, Hsize.
  - apply size_1_elem_of in Hsize. destruct Hsize as [t Ht].
    apply leibniz_equiv in Ht.
    assert (Hin : t ∈ gene_types defs fs) by (rewrite Ht; apply elem_of_singleton_2; reflexivity).
    unfold gene_types in Hin. apply elem_of_intersection in Hin.
    destruct Hin as [_ Hin].
    rewrite elem_of_list_to_set, list_elem_of_fmap in Hin.
    destruct Hin as [f0 [Hty Hf0]].
    destruct (occurrences t fs) as [|f rest] eqn:Hocc.
    { exfalso. assert (Hf : f0 ∈ occurrences t fs).
      { unfold occurrences. apply list_elem_of_filter. split; [congruence|exact Hf0]. }
      rewrite Hocc in Hf. inversion Hf. }
    destruct (gene_one_definition gid defs fs t f rest Ht Hocc) as [H1 [H2 H3]].
    destruct rest as [|g rest]; [eexists; apply H1; reflexivity|].
    destruct (decide (Forall (fun x => triple x = triple f) (g :: rest))) as [Hs|Hd].
    + eexists. apply H2; [discriminate|].
      apply same_triples_head. apply Forall_forall, Hs.
    + eexists. apply H3; [discriminate|].
      intros Hs. apply Hd, Forall_forall. apply same_triples_head, Hs.
  - eexists. apply gene_multiple_definitions. rewrite Hsize. lia.
Qed.

Lemma emit_genes_total st items :
  Forall (fun item => exists fs, item.2 = collect item.1 default_geneDefinitions fs) items ->
  exists st', pass2 st items = Ok st'.
Proof.
  intros H. revert st. induction H as [|[k geneObj] items [fs Hfs] _ IH]; intros st.
  - simpl. eauto.
  - simpl in *. subst geneObj.
    destruct (gene_collect_total k default_geneDefinitions fs) as [[[_gene|] w] ->];
      simpl; apply IH.
Qed.

End Emitting.

(** *** The summary *)

Section Summary.

Lemma first_seen_snoc ks k :
  first_seen (ks ++ [k]) =
  if decide (k ∈ first_seen ks) then first_seen ks else first_seen ks ++ [k].
Proof. unfold first_seen. rewrite fold_left_app. reflexivity. Qed.

Lemma tally_snoc items item :
  tally (items ++ [item]) = od_add (tally items) item.1 item.2.
Proof. unfold tally. rewrite fold_left_app. reflexivity. Qed.

Lemma tally_keys items : od_keys (tally items) = first_seen items.*1.
Proof.
  induction items as [|item items IH] using rev_ind; [reflexivity|].
  rewrite tally_snoc, fmap_app. change (fst <$> [item]) with [item.1].
  rewrite first_seen_snoc. unfold od_add.
  rewrite od_keys_set, IH. reflexivity.
Qed.

Lemma tally_NoDup items : NoDup (od_keys (tally items)).
Proof.
  induction items as [|item items IH] using rev_ind; [constructor|].
  rewrite tally_snoc. apply od_keys_NoDup_set, IH.
Qed.

Lemma total_snoc k items item :
  total k (items ++ [item]) =
  total k items + (if decide (item.1 = k) then item.2 else 0).
Proof.
  unfold total. rewrite filter_app, fmap_app, foldr_app, filter_cons, filter_nil.
  destruct (decide (item.1 = k)); simpl.
  - generalize (snd <$> filter (fun item0 => item0.1 = k) items).
    intros l. induction l as [|x l IH]; simpl; lia.
  - lia.
Qed.

Lemma total_absent k (items : list (string * Z)) :
  k ∉ items.*1 -> total k items = 0.
Proof.
  intros H. unfold total.
  replace (filter (fun item => item.1 = k) items) with (@nil (string * Z)); [reflexivity|].
  symmetry. induction items as [|x items IH]; [reflexivity|].
  rewrite fmap_cons, not_elem_of_cons in H. destruct H as [Hx H].
  rewrite filter_cons. destruct (decide (x.1 = k)); [congruence|]. apply IH, H.
Qed.

(** The value of a key is the sum of the lengths added under it. *)
Lemma tally_get items k :
  od_get (tally items) k =
  if decide (k ∈ items.*1) then Some (total k items) else None.
Proof.
  induction items as [|item items IH] using rev_ind.
  - simpl. destruct (decide (k ∈ [])) as [H|H]; [inversion H|reflexivity].
  - rewrite tally_snoc, total_snoc, fmap_app. change (fst <$> [item]) with [item.1].
    unfold od_add.
    destruct (decide (item.1 = k)) as [E|E].
    + subst k. rewrite od_get_set_eq, IH.
      destruct (decide (item.1 ∈ items.*1 ++ [item.1])) as [_|H].
      * destruct (decide (item.1 ∈ items.*1)) as [Hin|Hout]; simpl; [reflexivity|].
        rewrite total_absent by exact Hout. reflexivity.
      * exfalso. apply H. apply elem_of_app. right. left.
    + rewrite od_get_set_ne by exact E. rewrite IH, Z.add_0_r.
      destruct (decide (k ∈ items.*1)) as [H|H];
        destruct (decide (k ∈ items.*1 ++ [item.1])) as [H'|H']; try reflexivity.
      * exfalso. apply H'. apply elem_of_app. left. exact H.
      * exfalso. apply elem_of_app in H'. destruct H' as [H'|H']; [contradiction|].
        apply list_elem_of_singleton in H'. congruence.
Qed.

Lemma accumulate_snoc cs c :
  accumulate (cs ++ [c]) = add_length (accumulate cs) c.1.1 c.1.2 c.2.
Proof. unfold accumulate. rewrite fold_left_app. reflexivity. Qed.

Lemma accumulate_tally cs :
  chromosomes (accumulate cs) = tally ((fun c => (c.1.1, c.2)) <$> cs) /\
  genetypes (accumulate cs) = tally ((fun c => (c.1.2, c.2)) <$> cs).
Proof.
  induction cs as [|c cs [IH1 IH2]] using rev_ind; [split; reflexivity|].
  rewrite accumulate_snoc, !fmap_app.
  change ((fun c0 : string * string * Z => (c0.1.1, c0.2)) <$> [c]) with [(c.1.1, c.2)].
  change ((fun c0 : string * string * Z => (c0.1.2, c0.2)) <$> [c]) with [(c.1.2, c.2)].
  rewrite !tally_snoc, <- IH1, <- IH2.
  split; reflexivity.
Qed.

Lemma accumulate_keys cs :
  od_keys (chromosomes (accumulate cs)) = first_seen cs.*1.*1 /\
  od_keys (genetypes (accumulate cs)) = first_seen cs.*1.*2.
Proof.
  destruct (accumulate_tally cs) as [-> ->]. rewrite !tally_keys.
  rewrite <- !list_fmap_compose. split; reflexivity.
Qed.

End Summary.

Lemma fold_Gene_add g subs :
  fold_left Gene_add subs g =
  {| feature := feature g; splitExons := splitExons g;
     processGeneOnlyInformation := processGeneOnlyInformation g;
     subordinates := subordinates g ++ subs |}.
Proof.
  revert g. induction subs as [|f subs IH]; intros g; simpl.
  - rewrite app_nil_r. destruct g; reflexivity.
  - rewrite IH. simpl. rewrite <- app_assoc. reflexivity.
Qed.

Lemma finalize_finalized toBedDetailed summary_add st genes g :
  processGene toBedDetailed summary_add (Some g)
    (finalized toBedDetailed summary_add st genes) =
  finalized toBedDetailed summary_add st (genes ++ [g]).
Proof.
  unfold finalized. simpl. rewrite fmap_app, concat_app, fold_left_app. simpl.
  rewrite app_nil_r, <- app_assoc. reflexivity.
Qed.

Lemma finalized_nil toBedDetailed summary_add st :
  finalized toBedDetailed summary_add st [] = st.
Proof. unfold finalized. simpl. rewrite app_nil_r. destruct st; reflexivity. Qed.

Lemma resolved_genes_app geneDefinitions splitExons_opt processGeneOnlyInformation_opt
    (items1 items2 : list (string * GeneInfo)) :
  resolved_genes geneDefinitions splitExons_opt processGeneOnlyInformation_opt
    (items1 ++ items2) =
  resolved_genes geneDefinitions splitExons_opt processGeneOnlyInformation_opt items1 ++
  resolved_genes geneDefinitions splitExons_opt processGeneOnlyInformation_opt items2.
Proof. unfold resolved_genes. apply omap_app. Qed.

(** The second loop in closed form, on entries on which [gene] returns:
    the genes of the resolved entries are finalized, in order, and
    nothing else is done. *)
Lemma emit_genes_closed toBedDetailed summary_add geneDefinitions splitExons_opt
    processGeneOnlyInformation_opt items st genes :
  Forall (fun item : string * GeneInfo => exists r, gene item.2 = Ok r) items ->
  emit_genes toBedDetailed summary_add geneDefinitions splitExons_opt
    processGeneOnlyInformation_opt (finalized toBedDetailed summary_add st genes) items =
  Ok (finalized toBedDetailed summary_add st
        (genes ++ resolved_genes geneDefinitions splitExons_opt
                    processGeneOnlyInformation_opt items)).
Proof.
  intros H. revert genes.
  induction H as [|[k geneObj] items [[o w] Hr] _ IH]; intros genes.
  - simpl. rewrite app_nil_r. reflexivity.
  - simpl in Hr. cbn [emit_genes]. unfold resolved_genes. cbn [omap list_omap snd].
    fold (resolved_genes geneDefinitions splitExons_opt processGeneOnlyInformation_opt items).
    rewrite Hr. cbn [bind fst]. destruct o as [_gene|].
    + rewrite finalize_finalized, IH, <- app_assoc. reflexivity.
    + apply IH.
Qed.

Lemma gene_collected_returns geneId gtf :
  Forall (fun item : string * GeneInfo => exists r, gene item.2 = Ok r)
         (group_features geneId gtf).
Proof.
  eapply Forall_impl; [apply group_features_collected|].
  intros [k geneObj] [fs Hfs]. simpl in *. subst geneObj. apply gene_collect_total.
Qed.

(** C4: in sorted mode a stream in which a feature that is not
    gene-defining comes before any gene-defining feature raises the
    ordering error. A feature that is not gene-defining and is seen
    while there is a current gene is appended to it: after a run of such
    features the current gene holds them behind the features it had, in
    order, and nothing was written or added to the summary; a stream of
    a gene-defining feature and such features ends with that gene,
    holding them, being finalized. *)
Theorem sorted_mode_ordering isGene toBedDetailed summary_add splitExons_opt
    processGeneOnlyInformation_opt :
  (forall st pre f post,
     Forall (fun g => isGene g = false) pre -> isGene f = false ->
     _process_sorted isGene toBedDetailed summary_add splitExons_opt
       processGeneOnlyInformation_opt st (pre ++ f :: post) =
     Raise (Exception msg_out_of_order)) /\
  (forall g st subs,
     Forall (fun f => isGene f = false) subs ->
     sorted_loop isGene toBedDetailed summary_add splitExons_opt
       processGeneOnlyInformation_opt (Some g) st subs =
     Ok (Some {| feature := feature g; splitExons := splitExons g;
                 processGeneOnlyInformation := processGeneOnlyInformation g;
                 subordinates := subordinates g ++ subs |}, st)) /\
  (forall g st f gtf,
     isGene f = false ->
     sorted_loop isGene toBedDetailed summary_add splitExons_opt
       processGeneOnlyInformation_opt (Some g) st (f :: gtf) =
     sorted_loop isGene toBedDetailed summary_add splitExons_opt
       processGeneOnlyInformation_opt (Some (Gene_add g f)) st gtf /\
     subordinates (Gene_add g f) = subordinates g ++ [f] /\
     feature (Gene_add g f) = feature g) /\
  (forall st g0 subs,
     isGene g0 = true -> Forall (fun f => isGene f = false) subs ->
     _process_sorted isGene toBedDetailed summary_add splitExons_opt
       processGeneOnlyInformation_opt st (g0 :: subs) =
     Ok {| fOutput := fOutput st ++
                      lines_of toBedDetailed
                        {| feature := g0; splitExons := splitExons_opt;
                           processGeneOnlyInformation := processGeneOnlyInformation_opt;
                           subordinates := subs |};
           summary := summary_add (summary st)
                        {| feature := g0; splitExons := splitExons_opt;
                           processGeneOnlyInformation := processGeneOnlyInformation_opt;
                           subordinates := subs |} |}).
Proof.
  assert (Hrun : forall g st subs,
             Forall (fun f => isGene f = false) subs ->
             sorted_loop isGene toBedDetailed summary_add splitExons_opt
               processGeneOnlyInformation_opt (Some g) st subs =
             Ok (Some {| feature := feature g; splitExons := splitExons g;
                         processGeneOnlyInformation := processGeneOnlyInformation g;
                         subordinates := subordinates g ++ subs |}, st)).
  { intros g st subs Hsubs.
    rewrite <- (app_nil_r subs) at 1.
    rewrite sorted_loop_subordinates by exact Hsubs.
    rewrite fold_Gene_add. reflexivity. }
  split; [|split; [exact Hrun|split]].
  - intros st pre f post Hpre Hf. unfold _process_sorted.
    destruct Hpre as [|p pre Hp _]; simpl app;
      rewrite sorted_loop_orphan by assumption; reflexivity.
  - intros g st f gtf Hf. split; [apply sorted_loop_append, Hf|].
    split; reflexivity.
  - intros st g0 subs Hg Hsubs. unfold _process_sorted.
    rewrite sorted_loop_gene by exact Hg. rewrite Hrun by exact Hsubs.
    reflexivity.
Qed.

Lemma sorted_mode_ordering_witness :
  _process_sorted Examples.by_type Examples.bed_of Examples.count_gene true true
    start_run ([Examples.anonymous] ++ Examples.exon1 :: [Examples.gene1]) =
  Raise (Exception msg_out_of_order) /\
  sorted_loop Examples.by_type Examples.bed_of Examples.count_gene true true
    (Some (Gene_new Examples.gene1 true true))
    {| fOutput := ["earlier"%string]; summary := empty_summary |}
    [Examples.exon1; Examples.anonymous] =
  Ok (Some {| feature := Examples.gene1; splitExons := true;
              processGeneOnlyInformation := true;
              subordinates := [] ++ [Examples.exon1; Examples.anonymous] |},
      {| fOutput := ["earlier"%string]; summary := empty_summary |}) /\
  (sorted_loop Examples.by_type Examples.bed_of Examples.count_gene true true
     (Some (Gene_new Examples.gene1 true true)) start_run [Examples.exon1] =
   sorted_loop Examples.by_type Examples.bed_of Examples.count_gene true true
     (Some (Gene_add (Gene_new Examples.gene1 true true) Examples.exon1)) start_run [] /\
   subordinates (Gene_add (Gene_new Examples.gene1 true true) Examples.exon1) =
     subordinates (Gene_new Examples.gene1 true true) ++ [Examples.exon1] /\
   feature (Gene_add (Gene_new Examples.gene1 true true) Examples.exon1) =
     feature (Gene_new Examples.gene1 true true)) /\
  _process_sorted Examples.by_type Examples.bed_of Examples.count_gene true true
    {| fOutput := ["earlier"%string]; summary := empty_summary |}
    (Examples.gene1 :: [Examples.exon1; Examples.anonymous]) =
  Ok {| fOutput := ["earlier"%string] ++
                   lines_of Examples.bed_of
                     {| feature := Examples.gene1; splitExons := true;
                        processGeneOnlyInformation := true;
                        subordinates := [Examples.exon1; Examples.anonymous] |};
        summary := Examples.count_gene empty_summary
                     {| feature := Examples.gene1; splitExons := true;
                        processGeneOnlyInformation := true;
                        subordinates := [Examples.exon1; Examples.anonymous] |} |}.
Proof.
  pose proof (sorted_mode_ordering Examples.by_type Examples.bed_of
                Examples.count_gene true true) as [H1 [H2 [H3 H4]]].
  split; [|split; [|split]].
  - apply H1.
    + constructor; [vm_compute; reflexivity|constructor].
    + vm_compute; reflexivity.
  - apply (H2 (Gene_new Examples.gene1 true true)).
    repeat constructor.
  - apply H3. vm_compute; reflexivity.
  - apply (H4 {| fOutput := ["earlier"%string]; summary := empty_summary |}).
    + vm_compute; reflexivity.
    + repeat constructor.
Defined.

(** C5: in unsorted mode the first pass leaves a feature without the
    gene-id attribute out and appends every other feature to the
    GeneInfo of its gene id: after a feature of the id the entry of the
    id holds the features it held before and then this feature, and
    after the pass the entry of an id holds the features of the stream
    that carry the id, in order, an id that no feature carries having no
    entry. When the mapping is empty after the pass, as for a stream
    without any feature that has the attribute, a ValueError is
    raised. *)
Theorem unsorted_mode_grouping toBedDetailed summary_add gtfFile geneId
    geneDefinitions splitExons_opt processGeneOnlyInformation_opt :
  (forall geneMap f,
     attr f !! geneId = None -> group_feature geneId geneMap f = geneMap) /\
  (forall geneMap f gid,
     attr f !! geneId = Some gid ->
     exists geneObj,
       od_get (group_feature geneId geneMap f) gid = Some geneObj /\
       features geneObj =
         match od_get geneMap gid with
         | Some old => features old ++ [f]
         | None => [f]
         end) /\
  (forall gtf gid geneObj,
     od_get (group_features geneId gtf) gid = Some geneObj ->
     features geneObj = features_of geneId gid gtf /\
     features_of geneId gid gtf <> [] /\
     geneObj = collect gid default_geneDefinitions (features_of geneId gid gtf)) /\
  (forall gtf gid,
     od_get (group_features geneId gtf) gid = None ->
     features_of geneId gid gtf = []) /\
  (forall st gtf,
     group_features geneId gtf = [] ->
     _process_unsorted toBedDetailed summary_add gtfFile geneId geneDefinitions
       splitExons_opt processGeneOnlyInformation_opt st gtf =
     Raise (ValueError (msg_cannot_parse gtfFile))) /\
  (forall st gtf,
     Forall (fun f => attr f !! geneId = None) gtf ->
     _process_unsorted toBedDetailed summary_add gtfFile geneId geneDefinitions
       splitExons_opt processGeneOnlyInformation_opt st gtf =
     Raise (ValueError (msg_cannot_parse gtfFile))).
Proof.
  split; [apply group_feature_dropped|].
  split.
  { intros geneMap f gid Hattr. unfold group_feature. rewrite Hattr.
    destruct (od_get geneMap gid) as [old|]; eexists;
      (split; [apply od_get_set_eq|reflexivity]). }
  split.
  { intros gtf gid geneObj Hget. rewrite group_features_get in Hget.
    destruct (features_of geneId gid gtf) as [|f fs] eqn:E; [discriminate Hget|].
    injection Hget as <-. unfold features. rewrite collect_featList.
    split; [reflexivity|]. split; [discriminate|reflexivity]. }
  split.
  { intros gtf gid Hget. rewrite group_features_get in Hget.
    destruct (features_of geneId gid gtf); [reflexivity|discriminate Hget]. }
  assert (Hempty : forall st gtf,
            group_features geneId gtf = [] ->
            _process_unsorted toBedDetailed summary_add gtfFile geneId geneDefinitions
              splitExons_opt processGeneOnlyInformation_opt st gtf =
            Raise (ValueError (msg_cannot_parse gtfFile))).
  { intros st gtf H. unfold _process_unsorted. rewrite H. reflexivity. }
  split; [exact Hempty|].
  intros st gtf H. apply Hempty, group_features_empty, H.
Qed.

Lemma unsorted_mode_grouping_witness :
  group_feature "gene_id" [] Examples.anonymous = [] /\
  (exists geneObj,
     od_get (group_feature "gene_id"
               (group_features "gene_id" [Examples.gene1]) Examples.exon1) "g1" =
       Some geneObj /\
     features geneObj =
       match od_get (group_features "gene_id" [Examples.gene1]) "g1" with
       | Some old => features old ++ [Examples.exon1]
       | None => [Examples.exon1]
       end) /\
  (features (collect "g1" default_geneDefinitions [Examples.gene1; Examples.exon1]) =
     features_of "gene_id" "g1"
       [Examples.gene1; Examples.anonymous; Examples.gene2; Examples.exon1] /\
   features_of "gene_id" "g1"
     [Examples.gene1; Examples.anonymous; Examples.gene2; Examples.exon1] <> [] /\
   collect "g1" default_geneDefinitions [Examples.gene1; Examples.exon1] =
     collect "g1" default_geneDefinitions
       (features_of "gene_id" "g1"
          [Examples.gene1; Examples.anonymous; Examples.gene2; Examples.exon1])) /\
  features_of "gene_id" "g3"
    [Examples.gene1; Examples.anonymous; Examples.gene2; Examples.exon1] = [] /\
  _process_unsorted Examples.bed_of Examples.count_gene "in.gff" "gene_id"
    default_geneDefinitions true true start_run [] =
    Raise (ValueError (msg_cannot_parse "in.gff")) /\
  _process_unsorted Examples.bed_of Examples.count_gene "in.gff" "gene_id"
    default_geneDefinitions true true start_run [Examples.anonymous; Examples.anonymous] =
    Raise (ValueError (msg_cannot_parse "in.gff")).
Proof.
  pose proof (unsorted_mode_grouping Examples.bed_of Examples.count_gene "in.gff"
                "gene_id" default_geneDefinitions true true)
    as [H1 [H2 [H3 [H4 [H5 H6]]]]].
  split; [apply H1; vm_compute; reflexivity|].
  split; [apply H2; vm_compute; reflexivity|].
  split; [apply H3; vm_compute; reflexivity|].
  split; [apply H4; vm_compute; reflexivity|].
  split; [apply H5; vm_compute; reflexivity|].
  apply H6. repeat constructor.
Defined.

(** C6: in unsorted mode a gene id whose GeneInfo is not resolved (none
    of its types is gene-defining, more than one is, or its
    gene-defining features differ in coordinates) is skipped and the run
    goes on: the second loop returns the run in which the genes of the
    resolved entries, and no others, were finalized in the order of the
    entries, so an unresolved entry adds no line and nothing to the
    summary. The gene of a resolved entry has as subordinate features
    the features of the entry whose type is outside the configured gene
    definitions, and it is finalized once. This holds for every mapping
    the first pass builds, provided toBedDetailed and summary.add
    return. *)
Theorem unsorted_mode_resolution toBedDetailed summary_add geneDefinitions
    splitExons_opt processGeneOnlyInformation_opt :
  (forall st k geneObj w,
     gene geneObj = Ok (None, w) ->
     emit_genes toBedDetailed summary_add geneDefinitions splitExons_opt
       processGeneOnlyInformation_opt st [(k, geneObj)] = Ok st) /\
  (forall st k gid fs,
     unresolved default_geneDefinitions fs ->
     emit_genes toBedDetailed summary_add geneDefinitions splitExons_opt
       processGeneOnlyInformation_opt st
       [(k, collect gid default_geneDefinitions fs)] = Ok st) /\
  (forall st k geneObj _gene w,
     gene geneObj = Ok (Some _gene, w) ->
     let g := build_gene geneDefinitions splitExons_opt
                processGeneOnlyInformation_opt _gene geneObj in
     emit_genes toBedDetailed summary_add geneDefinitions splitExons_opt
       processGeneOnlyInformation_opt st [(k, geneObj)] =
     Ok {| fOutput := fOutput st ++ lines_of toBedDetailed g;
           summary := summary_add (summary st) g |} /\
     feature g = _gene /\
     subordinates g =
       filter (fun f => type f ∉ (list_to_set geneDefinitions : gset string))
              (features geneObj)) /\
  (forall st items,
     Forall (fun item : string * GeneInfo => exists r, gene item.2 = Ok r) items ->
     emit_genes toBedDetailed summary_add geneDefinitions splitExons_opt
       processGeneOnlyInformation_opt st items =
     Ok (finalized toBedDetailed summary_add st
           (resolved_genes geneDefinitions splitExons_opt
              processGeneOnlyInformation_opt items))) /\
  (forall pre k geneObj w post,
     gene geneObj = Ok (None, w) ->
     resolved_genes geneDefinitions splitExons_opt processGeneOnlyInformation_opt
       (pre ++ (k, geneObj) :: post) =
     resolved_genes geneDefinitions splitExons_opt processGeneOnlyInformation_opt
       (pre ++ post)) /\
  (forall geneId st gtf,
     emit_genes toBedDetailed summary_add geneDefinitions splitExons_opt
       processGeneOnlyInformation_opt st (group_features geneId gtf) =
     Ok (finalized toBedDetailed summary_add st
           (resolved_genes geneDefinitions splitExons_opt
              processGeneOnlyInformation_opt (group_features geneId gtf)))).
Proof.
  assert (Hclosed : forall st items,
            Forall (fun item : string * GeneInfo => exists r, gene item.2 = Ok r) items ->
            emit_genes toBedDetailed summary_add geneDefinitions splitExons_opt
              processGeneOnlyInformation_opt st items =
            Ok (finalized toBedDetailed summary_add st
                  (resolved_genes geneDefinitions splitExons_opt
                     processGeneOnlyInformation_opt items))).
  { intros st items H.
    rewrite <- (finalized_nil toBedDetailed summary_add st) at 1.
    rewrite emit_genes_closed by exact H. reflexivity. }
  assert (Hnone : forall st k geneObj w,
            gene geneObj = Ok (None, w) ->
            emit_genes toBedDetailed summary_add geneDefinitions splitExons_opt
              processGeneOnlyInformation_opt st [(k, geneObj)] = Ok st).
  { intros st k geneObj w H. simpl. rewrite H. reflexivity. }
  split; [exact Hnone|].
  split.
  { intros st k gid fs Hun. destruct (unresolved_gene gid _ _ Hun) as [w Hw].
    eapply Hnone, Hw. }
  split.
  { intros st k geneObj _gene w Hg. cbv zeta. split.
    - simpl. rewrite Hg. reflexivity.
    - apply build_gene_fields. }
  split; [exact Hclosed|].
  split.
  { intros pre k geneObj w post Hg. rewrite !resolved_genes_app. f_equal.
    unfold resolved_genes. cbn [omap list_omap snd]. rewrite Hg. reflexivity. }
  intros geneId st gtf. apply Hclosed, gene_collected_returns.
Qed.

Lemma unsorted_mode_resolution_witness :
  emit_genes Examples.bed_of Examples.count_gene default_geneDefinitions true true
    {| fOutput := ["earlier"%string]; summary := empty_summary |}
    [("g1"%string,
      collect "g1" default_geneDefinitions [Examples.gene1; Examples.gene1_moved])] =
    Ok {| fOutput := ["earlier"%string]; summary := empty_summary |} /\
  emit_genes Examples.bed_of Examples.count_gene default_geneDefinitions true true
    {| fOutput := ["earlier"%string]; summary := empty_summary |}
    [("g1"%string, collect "g1" default_geneDefinitions [Examples.exon1])] =
    Ok {| fOutput := ["earlier"%string]; summary := empty_summary |} /\
  (let g := build_gene default_geneDefinitions true true Examples.gene1
              (collect "g1" default_geneDefinitions
                 [Examples.gene1; Examples.exon1; Examples.gene1_copy]) in
   emit_genes Examples.bed_of Examples.count_gene default_geneDefinitions true true
     {| fOutput := ["earlier"%string]; summary := empty_summary |}
     [("g1"%string,
       collect "g1" default_geneDefinitions
         [Examples.gene1; Examples.exon1; Examples.gene1_copy])] =
   Ok {| fOutput := ["earlier"%string] ++ lines_of Examples.bed_of g;
         summary := Examples.count_gene empty_summary g |} /\
   feature g = Examples.gene1 /\
   subordinates g =
     filter (fun f => type f ∉ (list_to_set default_geneDefinitions : gset string))
            (features (collect "g1" default_geneDefinitions
                         [Examples.gene1; Examples.exon1; Examples.gene1_copy]))) /\
  emit_genes Examples.bed_of Examples.count_gene default_geneDefinitions true true
    {| fOutput := ["earlier"%string]; summary := empty_summary |}
    [("g1"%string, collect "g1" default_geneDefinitions [Examples.gene1; Examples.exon1]);
     ("g2"%string, collect "g2" default_geneDefinitions [Examples.exon2])] =
  Ok (finalized Examples.bed_of Examples.count_gene
        {| fOutput := ["earlier"%string]; summary := empty_summary |}
        (resolved_genes default_geneDefinitions true true
           [("g1"%string,
             collect "g1" default_geneDefinitions [Examples.gene1; Examples.exon1]);
            ("g2"%string, collect "g2" default_geneDefinitions [Examples.exon2])])) /\
  resolved_genes default_geneDefinitions true true
    ([("g1"%string, collect "g1" default_geneDefinitions [Examples.gene1; Examples.exon1])]
       ++ ("g2"%string, collect "g2" default_geneDefinitions [Examples.exon2]) :: []) =
  resolved_genes default_geneDefinitions true true
    ([("g1"%string, collect "g1" default_geneDefinitions [Examples.gene1; Examples.exon1])]
       ++ []).
Proof.
  pose proof (unsorted_mode_resolution Examples.bed_of Examples.count_gene
                default_geneDefinitions true true) as [H1 [H2 [H3 [H4 [H5 _]]]]].
  split; [|split; [|split; [|split]]].
  - eapply H1. vm_compute. reflexivity.
  - apply H2. left. vm_compute. reflexivity.
  - eapply H3. vm_compute. reflexivity.
  - apply H4. repeat constructor; eexists; vm_compute; reflexivity.
  - eapply H5. vm_compute. reflexivity.
Defined.

(** C8: the summary writer adds one line "track chr <name> <length>"
    for each chromosome and then one line "track type <name> <length>"
    for each gene type, in the order of the two mappings; the keys of a
    mapping are distinct and stand in the order in which they were
    first seen. For a gene of length 120 on chr1 and one of length 80
    on chr2, both of type protein_coding, the lines are
    "track chr chr1 120", "track chr chr2 80" and
    "track type protein_coding 200". *)
Theorem write_summary_trailer :
  (forall st,
     fOutput (_write_summary st) =
       fOutput st ++ (chr_line <$> chromosomes (summary st))
                  ++ (type_line <$> genetypes (summary st)) /\
     summary (_write_summary st) = summary st) /\
  (forall cs,
     od_keys (chromosomes (accumulate cs)) = first_seen cs.*1.*1 /\
     NoDup (od_keys (chromosomes (accumulate cs))) /\
     od_keys (genetypes (accumulate cs)) = first_seen cs.*1.*2 /\
     NoDup (od_keys (genetypes (accumulate cs)))) /\
  fOutput (_write_summary
             {| fOutput := [];
                summary := accumulate [("chr1", "protein_coding", 120);
                                       ("chr2", "protein_coding", 80)]%string |}) =
    ["track chr chr1 120" +:+ nl; "track chr chr2 80" +:+ nl;
     "track type protein_coding 200" +:+ nl]%string.
Proof.
  split; [intros st; split; reflexivity|].
  split; [|vm_compute; reflexivity].
  intros cs. destruct (accumulate_keys cs) as [Hc Ht].
  destruct (accumulate_tally cs) as [Ec Et].
  split; [exact Hc|]. split; [rewrite Ec; apply tally_NoDup|].
  split; [exact Ht|]. rewrite Et. apply tally_NoDup.
Qed.

End ClipFacts.

(** ** More on the sliding windows *)

Module TilerMore.

Import Tiler Examples TilerFacts.

Section Loop.

Variables windowSize windowStep : Z.
Variable emit : Z -> Z -> Z -> Row.
Hypothesis emit_bounds :
  forall p1 p2 c, w_start (emit p1 p2 c) = p1 /\ w_end (emit p1 p2 c) = p2.

(** With a step that is not positive the loop goes on as long as it is
    given fuel, one row per round. *)
Lemma window_loop_diverges fuel end_ pos1 pos2 wc :
  windowStep <= 0 -> pos2 < end_ ->
  let r := window_loop windowStep fuel emit end_ pos1 pos2 wc in
  r.1.1 = OutOfFuel /\ length r.2 = fuel.
Proof.
  intros Hstep. revert pos1 pos2 wc.
  induction fuel as [|fuel IH]; intros pos1 pos2 wc Hlt; cbv zeta.
  - simpl. destruct (Z.ltb_spec pos2 end_); [split; reflexivity|lia].
  - rewrite window_loop_step by assumption.
    destruct (Z.gtb_spec (pos2 + windowStep) end_); [lia|].
    specialize (IH (pos1 + windowStep) (pos2 + windowStep) (wc + 1)).
    cbv zeta in IH.
    destruct (window_loop _ _ _ _ _ _ _) as [[s wc'] rows].
    simpl in *. destruct IH as [-> ->]; [lia|]. split; reflexivity.
Qed.

(** No row of the loop ends beyond [end] or is wider than the window;
    with a step that is not negative no row starts before [pos1]. *)
Lemma window_loop_within fuel end_ pos1 pos2 wc :
  pos2 = pos1 + windowSize ->
  Forall (fun r => w_end r <= end_ /\ w_end r - w_start r <= windowSize /\
                   (0 <= windowStep -> pos1 <= w_start r))
         (window_loop windowStep fuel emit end_ pos1 pos2 wc).2.
Proof.
  revert pos1 pos2 wc.
  induction fuel as [|fuel IH]; intros pos1 pos2 wc Hpos.
  - simpl. destruct (pos2 <? end_); constructor.
  - destruct (Z.lt_ge_cases pos2 end_) as [Hlt|Hge].
    + rewrite window_loop_step by assumption.
      destruct (emit_bounds pos1 pos2 wc) as [E1 E2].
      destruct (Z.gtb_spec (pos2 + windowStep) end_).
      * destruct (emit_bounds (pos1 + windowStep) end_ (wc + 1)) as [E3 E4].
        simpl. constructor; [|constructor; [|constructor]]; lia.
      * specialize (IH (pos1 + windowStep) (pos2 + windowStep) (wc + 1)).
        destruct (window_loop _ _ _ _ _ _ _) as [[s wc'] rows].
        simpl in *. constructor; [lia|].
        eapply Forall_impl; [apply IH; lia|].
        intros r [H1 [H2 H3]]. simpl. split; [exact H1|]. split; [exact H2|].
        intros Hs. specialize (H3 Hs). lia.
    + rewrite window_loop_exit by lia. constructor.
Qed.

(** The stretch the rows of the loop cover, for a positive step that is
    at most the width. *)
Lemma window_loop_covers fuel end_ pos1 pos2 wc x :
  0 < windowStep -> windowStep <= windowSize ->
  pos2 = pos1 + windowSize -> pos2 < end_ ->
  (Z.to_nat (end_ - pos2) <= fuel)%nat ->
  pos1 <= x < (if decide ((end_ - pos2) mod windowStep = 0)
               then end_ - windowStep else end_) ->
  covered (window_loop windowStep fuel emit end_ pos1 pos2 wc).2 x.
Proof.
  intros Hstep Hsize. revert pos1 pos2 wc.
  induction fuel as [|fuel IH]; intros pos1 pos2 wc Hpos Hlt Hfuel Hx; [lia|].
  rewrite window_loop_step by assumption.
  destruct (emit_bounds pos1 pos2 wc) as [E1 E2].
  destruct (Z.gtb_spec (pos2 + windowStep) end_) as [Hgt|Hle].
  - destruct (emit_bounds (pos1 + windowStep) end_ (wc + 1)) as [E3 E4].
    rewrite decide_False in Hx by (rewrite Z.mod_small; lia).
    simpl. unfold covered. destruct (Z.lt_ge_cases x pos2).
    + apply Exists_cons_hd. lia.
    + apply Exists_cons_tl, Exists_cons_hd. lia.
  - destruct (Z.eq_dec (pos2 + windowStep) end_) as [Heq|Hne].
    + rewrite window_loop_exit by lia.
      rewrite decide_True in Hx
        by (replace (end_ - pos2) with windowStep by lia; apply Z_mod_same_full).
      simpl. apply Exists_cons_hd. lia.
    + specialize (IH (pos1 + windowStep) (pos2 + windowStep) (wc + 1)).
      assert (Hmod : (end_ - (pos2 + windowStep)) mod windowStep =
                     (end_ - pos2) mod windowStep).
      { replace (end_ - (pos2 + windowStep)) with (end_ - pos2 + (-1) * windowStep) by lia.
        apply Z_mod_plus_full. }
      rewrite Hmod in IH.
      destruct (window_loop _ _ _ _ _ _ _) as [[s wc'] rows].
      simpl in *. unfold covered in *.
      destruct (Z.lt_ge_cases x (pos1 + windowStep)).
      * apply Exists_cons_hd. lia.
      * apply Exists_cons_tl. apply IH; lia.
Qed.

(** No row of the loop ends beyond the stretch. *)
Lemma window_loop_reach fuel end_ pos1 pos2 wc :
  0 < windowStep -> pos2 < end_ ->
  Forall (fun r => w_end r <= (if decide ((end_ - pos2) mod windowStep = 0)
                               then end_ - windowStep else end_))
         (window_loop windowStep fuel emit end_ pos1 pos2 wc).2.
Proof.
  intros Hstep. revert pos1 pos2 wc.
  induction fuel as [|fuel IH]; intros pos1 pos2 wc Hlt.
  - simpl. destruct (pos2 <? end_); constructor.
  - rewrite window_loop_step by assumption.
    destruct (emit_bounds pos1 pos2 wc) as [E1 E2].
    destruct (Z.gtb_spec (pos2 + windowStep) end_) as [Hgt|Hle].
    + destruct (emit_bounds (pos1 + windowStep) end_ (wc + 1)) as [E3 E4].
      rewrite decide_False by (rewrite Z.mod_small; lia).
      simpl. constructor; [|constructor; [|constructor]]; lia.
    + destruct (Z.eq_dec (pos2 + windowStep) end_) as [Heq|Hne].
      * rewrite window_loop_exit by lia.
        rewrite decide_True
          by (replace (end_ - pos2) with windowStep by lia; apply Z_mod_same_full).
        simpl. constructor; [lia|constructor].
      * specialize (IH (pos1 + windowStep) (pos2 + windowStep) (wc + 1)).
        assert (Hmod : (end_ - (pos2 + windowStep)) mod windowStep =
                       (end_ - pos2) mod windowStep).
        { replace (end_ - (pos2 + windowStep)) with (end_ - pos2 + (-1) * windowStep) by lia.
          apply Z_mod_plus_full. }
        rewrite Hmod in IH.
        destruct (window_loop _ _ _ _ _ _ _) as [[s wc'] rows].
        simpl in *. constructor; [|apply IH; lia].
        destruct (decide ((end_ - pos2) mod windowStep = 0)) as [Hz|Hnz]; [|lia].
        assert (windowStep <= end_ - pos2); [|lia].
        destruct (Z.lt_ge_cases (end_ - pos2) windowStep) as [Hsm|]; [|assumption].
        rewrite Z.mod_small in Hz by lia. lia.
Qed.

End Loop.

Section Lines.

Variables windowSize windowStep : Z.

Lemma windows_finishes fuel emit start end_ wc :
  0 < windowStep ->
  (Z.to_nat (end_ - (start + windowSize)) <= fuel)%nat ->
  (windows windowSize windowStep fuel emit start end_ wc).1.1 = Finished.
Proof.
  intros Hstep Hfuel. unfold windows.
  destruct (start + windowSize >=? end_); [reflexivity|].
  apply window_loop_finishes; assumption.
Qed.

Lemma tile_line_status fuel st b :
  0 < windowStep ->
  (Z.to_nat (stop b - (start b + windowSize)) <= fuel)%nat ->
  (tile_line windowSize windowStep fuel st b).1 <> OutOfFuel.
Proof.
  intros Hstep Hfuel.
  destruct (parse_name b) as [[name fn]|e] eqn:Hp.
  - destruct (tile_line_parsed windowSize windowStep fuel st b name fn Hp) as [-> _].
    rewrite windows_finishes by assumption. discriminate.
  - unfold tile_line. rewrite Hp. discriminate.
Qed.

End Lines.

(** X1: with a positive step slidingWindow comes to an end on every
    file: once the fuel covers the longest interval, the run finishes or
    raises, it is never cut off. *)
Theorem slidingWindow_terminates windowSize windowStep fuel lines :
  0 < windowStep ->
  (forall b, Data b ∈ lines ->
             (Z.to_nat (stop b - (start b + windowSize)) <= fuel)%nat) ->
  (slidingWindow windowSize windowStep fuel lines).1 <> OutOfFuel.
Proof.
  intros Hstep. unfold slidingWindow. generalize initial.
  induction lines as [|[rest|b] lines IH]; intros st Hfuel; simpl.
  - discriminate.
  - apply IH. intros b Hb. apply Hfuel. right. exact Hb.
  - pose proof (tile_line_status windowSize windowStep fuel st b Hstep
                  (Hfuel b ltac:(left))) as Hs.
    destruct (tile_line windowSize windowStep fuel st b) as [s st'].
    destruct s; simpl in *.
    + apply IH. intros b' Hb. apply Hfuel. right. exact Hb.
    + discriminate.
    + contradiction.
Qed.

Lemma slidingWindow_terminates_witness :
  (slidingWindow 50 20 60 [Data (example_line 100 210)]).1 <> OutOfFuel.
Proof.
  apply slidingWindow_terminates.
  - lia.
  - intros b Hb. apply list_elem_of_singleton in Hb. injection Hb as ->.
    vm_compute. lia.
Defined.

(** X2: with a step of zero or below, a well-formed line whose interval
    is longer than a window is never finished: whatever the fuel, the
    loop is still running and has written one row per round. *)
Theorem slidingWindow_never_ends windowSize windowStep fuel st b p :
  windowStep <= 0 ->
  parse_name b = Ok p ->
  start b + windowSize < stop b ->
  (tile_line windowSize windowStep fuel st b).1 = OutOfFuel /\
  length (line_rows windowSize windowStep fuel st b) = fuel.
Proof.
  intros Hstep Hp Hlt. destruct p as [name fn].
  destruct (tile_line_parsed windowSize windowStep fuel st b name fn Hp) as [Hs _].
  rewrite Hs, (line_rows_parsed _ _ _ _ _ _ _ Hp). unfold windows.
  destruct (Z.geb_spec (start b + windowSize) (stop b)); [lia|].
  apply window_loop_diverges; assumption.
Qed.

Lemma slidingWindow_never_ends_witness :
  (tile_line 50 0 7 initial (example_line 100 210)).1 = OutOfFuel /\
  length (line_rows 50 0 7 initial (example_line 100 210)) = 7%nat.
Proof.
  eapply (slidingWindow_never_ends 50 0 7 initial (example_line 100 210)).
  - lia.
  - reflexivity.
  - simpl. lia.
Defined.

(** X3: no row written for a line ends beyond the end of the line or is
    wider than windowSize, and with a step that is not negative no row
    starts before the start of the line. *)
Theorem slidingWindow_rows_within windowSize windowStep fuel st b :
  Forall (fun r => w_end r <= stop b /\ w_end r - w_start r <= windowSize /\
                   (0 <= windowStep -> start b <= w_start r))
         (line_rows windowSize windowStep fuel st b).
Proof.
  destruct (parse_name b) as [[name fn]|e] eqn:Hp.
  - rewrite (line_rows_parsed _ _ _ _ _ _ _ Hp). unfold windows.
    destruct (Z.geb_spec (start b + windowSize) (stop b)).
    + cbn [snd]. constructor; [|constructor].
      cbn [w_start w_end emit_row]. repeat split; intros; lia.
    + apply window_loop_within; [intros; apply emit_row_fields|reflexivity].
  - rewrite (line_rows_malformed _ _ _ _ _ _ Hp). constructor.
Qed.

(** X4: for a well-formed line, a positive step that is at most the
    width and enough fuel, a position lies in a window of the line
    exactly when it lies between the start of the line and its reach:
    the end of the line, or one step before it when an advance lands on
    the end exactly. The windows leave no gap before the reach. *)
Theorem slidingWindow_coverage windowSize windowStep fuel st b p x :
  parse_name b = Ok p ->
  0 < windowStep -> windowStep <= windowSize ->
  (Z.to_nat (stop b - (start b + windowSize)) <= fuel)%nat ->
  covered (line_rows windowSize windowStep fuel st b) x <->
  start b <= x < reach windowSize windowStep (start b) (stop b).
Proof.
  intros Hp Hstep Hsize Hfuel. destruct p as [name fn].
  rewrite (line_rows_parsed _ _ _ _ _ _ _ Hp). unfold windows, reach.
  set (emit := emit_row b name (nth 0 name EmptyString) (nth 3 name EmptyString) fn).
  assert (Hemit : forall p1 p2 c, w_start (emit p1 p2 c) = p1 /\ w_end (emit p1 p2 c) = p2)
    by (intros; apply emit_row_fields).
  destruct (Z.geb_spec (start b + windowSize) (stop b)) as [Hge|Hlt].
  - simpl. unfold covered. rewrite Exists_cons, Exists_nil. simpl. tauto.
  - split.
    + unfold covered. rewrite Exists_exists. intros [r [Hin Hr]].
      pose proof (window_loop_within windowSize windowStep emit Hemit fuel (stop b)
                    (start b) (start b + windowSize)
                    (first_count (windowidMap st) (nth 0 name EmptyString)).2 eq_refl) as Hw.
      pose proof (window_loop_reach windowStep emit Hemit fuel (stop b)
                    (start b) (start b + windowSize)
                    (first_count (windowidMap st) (nth 0 name EmptyString)).2 Hstep Hlt) as Hr'.
      rewrite Forall_forall in Hw, Hr'.
      specialize (Hw r Hin). specialize (Hr' r Hin). simpl in Hw.
      destruct Hw as [_ [_ Hw]]. specialize (Hw ltac:(lia)). lia.
    + intros Hx. eapply window_loop_covers; eauto.
Qed.

Lemma slidingWindow_coverage_witness :
  covered (line_rows 50 20 60 initial (example_line 100 210)) 170 <->
  start (example_line 100 210) <= 170 <
    reach 50 20 (start (example_line 100 210)) (stop (example_line 100 210)).
Proof.
  eapply (slidingWindow_coverage 50 20 60 initial (example_line 100 210)).
  - reflexivity.
  - lia.
  - lia.
  - vm_compute. lia.
Defined.

Lemma split_length c s : length (split c s) = S (count_char c s).
Proof.
  induction s as [|a s IH]; simpl; [reflexivity|].
  destruct (Ascii.eqb a c); simpl; [rewrite IH; reflexivity|].
  destruct (split c s) as [|x xs]; [discriminate IH|exact IH].
Qed.

Lemma tile_lines_raise windowSize windowStep fuel st b rest e :
  parse_name b = Raise e ->
  tile_lines windowSize windowStep fuel st (Data b :: rest) = (Raised e, st).
Proof. intros Hp. simpl. unfold tile_line. rewrite Hp. reflexivity. Qed.

(** X6: a data line whose name has fewer than five tokens between "@"
    raises IndexError, and one whose fifth token does not hold exactly
    one "/" raises ValueError; the run stops there, with nothing written
    for the line, the counters as they were and the lines after it
    unread. A name with five tokens and one "/" in the fifth is
    accepted. *)
Theorem slidingWindow_malformed_line windowSize windowStep fuel st b rest :
  ((count_char "@" (name b) < 4)%nat ->
   tile_lines windowSize windowStep fuel st (Data b :: rest) = (Raised IndexError, st)) /\
  (forall name4,
     split "@" (name b) !! 4%nat = Some name4 ->
     count_char "/" name4 <> 1%nat ->
     tile_lines windowSize windowStep fuel st (Data b :: rest) =
       (Raised (ValueError "unpack"), st)) /\
  (forall name4,
     split "@" (name b) !! 4%nat = Some name4 ->
     count_char "/" name4 = 1%nat ->
     exists p, parse_name b = Ok p).
Proof.
  split; [|split].
  - intros Hc. apply tile_lines_raise. unfold parse_name, index.
    rewrite (proj2 (lookup_ge_None _ _)); [reflexivity|].
    rewrite split_length. lia.
  - intros name4 H4 Hc. apply tile_lines_raise. unfold parse_name, index.
    rewrite H4. cbn [bind].
    pose proof (split_length "/" name4) as Hl.
    destruct (split "/" name4) as [|x [|y [|z l]]]; try reflexivity.
    simpl in Hl. exfalso. apply Hc. lia.
  - intros name4 H4 Hc. unfold parse_name, index. rewrite H4. cbn [bind].
    pose proof (split_length "/" name4) as Hl. rewrite Hc in Hl.
    destruct (split "/" name4) as [|x [|y [|z l]]]; try discriminate Hl.
    eexists. reflexivity.
Qed.

Lemma slidingWindow_malformed_line_witness :
  tile_lines 50 20 5 initial
    [Data {| chrom := "chr1"; start := 0; stop := 30; name := "geneA@x@y";
             score := "0"; strand := "+" |};
     Data (example_line 0 30)] = (Raised IndexError, initial) /\
  tile_lines 50 20 5 initial
    [Data {| chrom := "chr1"; start := 0; stop := 30; name := "geneA@x@y@exon@3";
             score := "0"; strand := "+" |};
     Data (example_line 0 30)] = (Raised (ValueError "unpack"), initial) /\
  (exists p, parse_name (example_line 0 30) = Ok p).
Proof.
  split; [|split].
  - apply (proj1 (slidingWindow_malformed_line 50 20 5 initial _ _)).
    vm_compute. lia.
  - apply (proj1 (proj2 (slidingWindow_malformed_line 50 20 5 initial _ _)) "3"%string).
    + reflexivity.
    + vm_compute. lia.
  - apply (proj2 (proj2 (slidingWindow_malformed_line 50 20 5 initial
                           (example_line 0 30) [])) "3/7"%string).
    + reflexivity.
    + reflexivity.
Defined.

Section Counters.

Variables windowSize windowStep : Z.

Lemma window_loop_emitted emit fuel end_ pos1 pos2 wc :
  Forall (fun r => exists p1 p2 c, r = emit p1 p2 c)
         (window_loop windowStep fuel emit end_ pos1 pos2 wc).2.
Proof.
  revert pos1 pos2 wc. induction fuel as [|fuel IH]; intros pos1 pos2 wc.
  - simpl. destruct (pos2 <? end_); constructor.
  - destruct (Z.lt_ge_cases pos2 end_) as [Hlt|Hge].
    + rewrite window_loop_step by assumption.
      destruct (pos2 + windowStep >? end_).
      * simpl. constructor; [eauto|]. constructor; [eauto|constructor].
      * specialize (IH (pos1 + windowStep) (pos2 + windowStep) (wc + 1)).
        destruct (window_loop _ _ _ _ _ _ _) as [[s wc'] rows].
        simpl in *. constructor; [eauto|exact IH].
    + rewrite window_loop_exit by lia. constructor.
Qed.

Lemma windows_emitted emit fuel start end_ wc :
  Forall (fun r => exists p1 p2 c, r = emit p1 p2 c)
         (windows windowSize windowStep fuel emit start end_ wc).2.
Proof.
  unfold windows. destruct (start + windowSize >=? end_).
  - simpl. constructor; [eauto|constructor].
  - apply window_loop_emitted.
Qed.

Lemma name0_of_emit_row b name name3 fn p1 p2 c :
  name0_of (emit_row b name (nth 0 name EmptyString) name3 fn p1 p2 c) =
  nth 0 name EmptyString.
Proof. unfold name0_of. simpl. destruct name; reflexivity. Qed.

Lemma counters_kept_initial : counters_kept initial.
Proof.
  split.
  - intros i j r1 r2 _ H. discriminate H.
  - intros r Hr. inversion Hr.
Qed.

Lemma tile_line_counters_kept fuel st b :
  counters_kept st ->
  increasing_per_name (fOutput (tile_line windowSize windowStep fuel st b).2) /\
  ((tile_line windowSize windowStep fuel st b).1 = Finished ->
   counters_kept (tile_line windowSize windowStep fuel st b).2).
Proof.
  intros [Hinc Hmap].
  destruct (parse_name b) as [[name fn]|e] eqn:Hp;
    [|unfold tile_line; rewrite Hp; simpl; split; [exact Hinc|discriminate]].
  set (name0 := nth 0 name EmptyString).
  set (emit := emit_row b name name0 (nth 3 name EmptyString) fn).
  assert (Hc : forall p1 p2 c, w_count (emit p1 p2 c) = c) by reflexivity.
  pose proof (windows_counters windowSize windowStep fuel emit (start b) (stop b)
                (first_count (windowidMap st) name0).2 Hc) as Hw.
  pose proof (windows_emitted emit fuel (start b) (stop b)
                (first_count (windowidMap st) name0).2) as Hem.
  cbv zeta in Hw. unfold tile_line. rewrite Hp. cbv zeta. fold name0 emit.
  destruct (first_count (windowidMap st) name0) as [m wc] eqn:Hfc. simpl snd in *.
  destruct (windows windowSize windowStep fuel emit (start b) (stop b) wc)
    as [[s wc'] rows]. simpl in Hw, Hem. destruct Hw as [Hcount Hwc].
  assert (Hnew : forall i r, rows !! i = Some r ->
             w_count r = wc + Z.of_nat i /\ name0_of r = name0).
  { intros i r Hr. split.
    - assert (Hci : counters rows !! i = Some (w_count r))
        by (unfold counters; rewrite list_lookup_fmap, Hr; reflexivity).
      rewrite Hcount in Hci. apply lookup_seqZ in Hci. lia.
    - rewrite Forall_forall in Hem.
      destruct (Hem r (list_elem_of_lookup_2 _ _ _ Hr)) as [p1 [p2 [c ->]]].
      apply name0_of_emit_row. }
  assert (Hold : forall r, r ∈ fOutput st -> name0_of r = name0 ->
             w_count r < wc /\ exists c, m !! name0 = Some c).
  { intros r Hr Hn. destruct (Hmap r Hr) as [c [Hc1 Hc2]]. rewrite Hn in Hc1.
    unfold first_count in Hfc. rewrite Hc1 in Hfc. injection Hfc as <- <-.
    split; [lia|eauto]. }
  assert (Hother : forall n, n <> name0 -> m !! n = windowidMap st !! n).
  { intros n Hn. unfold first_count in Hfc.
    destruct (windowidMap st !! name0); injection Hfc as <- _; [reflexivity|].
    apply lookup_insert_ne. congruence. }
  assert (Hall : increasing_per_name (fOutput st ++ rows)).
  { intros i j r1 r2 Hij H1 H2 Hn.
    destruct (Nat.lt_ge_cases j (length (fOutput st))) as [Hj|Hj].
    - rewrite lookup_app_l in H1 by lia. rewrite lookup_app_l in H2 by lia.
      exact (Hinc i j r1 r2 Hij H1 H2 Hn).
    - rewrite lookup_app_r in H2 by lia.
      destruct (Hnew _ _ H2) as [Hc2 Hn2].
      destruct (Nat.lt_ge_cases i (length (fOutput st))) as [Hi|Hi].
      + rewrite lookup_app_l in H1 by lia.
        destruct (Hold r1 (list_elem_of_lookup_2 _ _ _ H1)) as [Hlt _]; [congruence|].
        lia.
      + rewrite lookup_app_r in H1 by lia.
        destruct (Hnew _ _ H1) as [Hc1 _]. lia. }
  destruct s; cbn [fst snd windowidMap fOutput]; (split; [exact Hall|]); try discriminate.
  intros _. specialize (Hwc eq_refl). subst wc'. split; [exact Hall|].
  intros r Hr. cbn [windowidMap fOutput] in Hr |- *. apply elem_of_app in Hr.
  destruct (decide (name0_of r = name0)) as [Hn|Hn].
  - rewrite Hn, lookup_insert_eq. eexists. split; [reflexivity|].
    destruct Hr as [Hr|Hr].
    + destruct (Hold r Hr Hn) as [Hlt _]. lia.
    + apply list_elem_of_lookup_1 in Hr. destruct Hr as [i Hi].
      destruct (Hnew _ _ Hi) as [-> _]. apply lookup_lt_Some in Hi. lia.
  - rewrite lookup_insert_ne by congruence. rewrite Hother by exact Hn.
    destruct Hr as [Hr|Hr]; [apply Hmap, Hr|].
    apply list_elem_of_lookup_1 in Hr. destruct Hr as [i Hi].
    destruct (Hnew _ _ Hi) as [_ Hn']. contradiction.
Qed.

Lemma tile_lines_counters_kept fuel lines st :
  counters_kept st ->
  increasing_per_name (fOutput (tile_lines windowSize windowStep fuel st lines).2) /\
  ((tile_lines windowSize windowStep fuel st lines).1 = Finished ->
   counters_kept (tile_lines windowSize windowStep fuel st lines).2).
Proof.
  revert st. induction lines as [|[rest|b] lines IH]; intros st Hst.
  - simpl. split; [apply Hst|intros _; exact Hst].
  - simpl. apply IH, Hst.
  - simpl. destruct (tile_line_counters_kept fuel st b Hst) as [H1 H2].
    destruct (tile_line windowSize windowStep fuel st b) as [s st'].
    destruct s; simpl in *.
    + apply IH, H2. reflexivity.
    + split; [exact H1|discriminate].
    + split; [exact H1|discriminate].
Qed.

End Counters.

(** X7: in the output of slidingWindow the counters of the rows of one
    name grow strictly in the order of writing, over the whole file and
    however the run ends, so no two rows of a name share a counter; after
    a run that finished, the counter stored for a name is above every
    counter written for it. *)
Theorem slidingWindow_counters_increase windowSize windowStep fuel lines :
  let r := slidingWindow windowSize windowStep fuel lines in
  increasing_per_name (fOutput r.2) /\
  (r.1 = Finished ->
   Forall (fun row => exists c, windowidMap r.2 !! name0_of row = Some c /\
                                w_count row < c)
          (fOutput r.2)).
Proof.
  cbv zeta. unfold slidingWindow.
  destruct (tile_lines_counters_kept windowSize windowStep fuel lines initial
              counters_kept_initial) as [H1 H2].
  split; [exact H1|]. intros Hfin. apply Forall_forall. apply H2, Hfin.
Qed.

Lemma slidingWindow_counters_increase_witness :
  Forall (fun row =>
            exists c, windowidMap (slidingWindow 50 20 5 [Data (example_line 0 30)]).2
                        !! name0_of row = Some c /\ w_count row < c)
         (fOutput (slidingWindow 50 20 5 [Data (example_line 0 30)]).2).
Proof.
  apply (proj2 (slidingWindow_counters_increase 50 20 5 [Data (example_line 0 30)])).
  vm_compute. reflexivity.
Defined.

Lemma split_no_sep c s : Forall (fun t => count_char c t = 0%nat) (split c s).
Proof.
  induction s as [|a s IH]; simpl.
  - constructor; [reflexivity|constructor].
  - destruct (Ascii.eqb a c) eqn:E.
    + constructor; [reflexivity|exact IH].
    + destruct (split c s) as [|x xs]; [constructor; [simpl; rewrite E; reflexivity|constructor]|].
      apply Forall_cons in IH. destruct IH as [Hx Hxs].
      constructor; [simpl; rewrite E; exact Hx|exact Hxs].
Qed.

Lemma split_app_sep c t s :
  count_char c t = 0%nat -> split c (t +:+ String c s) = t :: split c s.
Proof.
  induction t as [|a t IH]; simpl.
  - intros _. rewrite Ascii.eqb_refl. reflexivity.
  - destruct (Ascii.eqb a c); [discriminate|]. intros H. rewrite IH by exact H.
    reflexivity.
Qed.

(** Joining tokens that are free of the separator and splitting again
    gives the tokens back, whatever follows them. *)
Lemma split_concat c ts rest :
  Forall (fun t => count_char c t = 0%nat) ts -> rest <> [] ->
  split c (String.concat (String c EmptyString) (ts ++ rest)) =
  ts ++ split c (String.concat (String c EmptyString) rest).
Proof.
  intros H Hrest. induction H as [|t ts Ht _ IH]; [reflexivity|].
  simpl app. destruct (ts ++ rest) as [|x l] eqn:E.
  - apply app_eq_nil in E. destruct E as [_ E]. contradiction.
  - change (String.concat (String c EmptyString) (t :: x :: l))
      with (t +:+ String c (String.concat (String c EmptyString) (x :: l))).
    rewrite split_app_sep by exact Ht.
    rewrite IH. reflexivity.
Qed.

(** X16: a row written for a well-formed line is a well-formed line
    again: read back, its name splits into the first five tokens of the
    line followed by further tokens, and its feature number is the one
    of the line. The output of slidingWindow can be tiled again. *)
Theorem slidingWindow_rows_wellformed windowSize windowStep fuel st b name fn :
  parse_name b = Ok (name, fn) ->
  Forall (fun r => exists name',
                     parse_name (row_line r) = Ok (name', fn) /\
                     take 5 name' = take 5 name /\ (5 < length name')%nat)
         (line_rows windowSize windowStep fuel st b).
Proof.
  intros Hp. apply Forall_forall. intros r Hr.
  rewrite (line_rows_parsed _ _ _ _ _ _ _ Hp) in Hr.
  pose proof (windows_emitted windowSize windowStep
                (emit_row b name (nth 0 name EmptyString) (nth 3 name EmptyString) fn)
                fuel (start b) (stop b)
                (first_count (windowidMap st) (nth 0 name EmptyString)).2) as Hem.
  rewrite Forall_forall in Hem. destruct (Hem r Hr) as [p1 [p2 [c ->]]]. clear Hem Hr.
  unfold parse_name in Hp. unfold index in Hp.
  destruct (split "@" (Tiler.name b) !! 4%nat) as [name4|] eqn:H4; [|discriminate Hp].
  cbn [bind] in Hp.
  destruct (split "/" name4) as [|x [|y [|z l]]] eqn:Hsplit; try discriminate Hp.
  injection Hp as <- <-.
  set (name := split "@" (Tiler.name b)) in *.
  set (uid := UID (nth 0 name EmptyString) (nth 3 name EmptyString) x c).
  assert (Hlen : (length (take 5 name) = 5)%nat).
  { rewrite length_take. apply lookup_lt_Some in H4. lia. }
  assert (Hsplit' : split "@" (Tiler.name (row_line
            (emit_row b name (nth 0 name EmptyString) (nth 3 name EmptyString) x p1 p2 c))) =
          take 5 name ++ split "@" (String.concat "@" [uid; str c])).
  { cbn [row_line Tiler.name emit_row w_name w_uid w_count]. fold uid.
    apply (split_concat "@" (take 5 name) [uid; str c]); [|discriminate].
    apply Forall_take, split_no_sep. }
  exists (take 5 name ++ split "@" (String.concat "@" [uid; str c])).
  split; [|split].
  - unfold parse_name, index. rewrite Hsplit'.
    rewrite lookup_app_l by lia. rewrite lookup_take_lt by lia. rewrite H4.
    cbn [bind]. rewrite Hsplit. reflexivity.
  - rewrite take_app_length' by (symmetry; exact Hlen). reflexivity.
  - rewrite length_app, Hlen, split_length. lia.
Qed.

Lemma slidingWindow_rows_wellformed_witness :
  Forall (fun r => exists name',
                     parse_name (row_line r) = Ok (name', "3"%string) /\
                     take 5 name' = take 5 (split "@" (name (example_line 100 210))) /\
                     (5 < length name')%nat)
         (line_rows 50 20 60 initial (example_line 100 210)).
Proof.
  apply (slidingWindow_rows_wellformed 50 20 60 initial (example_line 100 210)).
  reflexivity.
Defined.

End TilerMore.

(** ** More on [GeneInfo] *)

Module GffMore.

Import Gff Clip GffFacts ClipFacts.

(** The five ways [gene] ends on a [GeneInfo] fed by [add_feature]. *)
Lemma gene_cases gid defs fs :
  (size (gene_types defs fs) = 0%nat /\
   gene (collect gid defs fs) = Ok (None, [msg_no_definition gid])) \/
  ((1 < size (gene_types defs fs))%nat /\
   gene (collect gid defs fs) = Ok (None, [msg_multiple_definitions gid])) \/
  (exists t f,
     gene_types defs fs = {[t]} /\ occurrences t fs = [f] /\
     gene (collect gid defs fs) = Ok (Some f, [])) \/
  (exists t f rest,
     gene_types defs fs = {[t]} /\ occurrences t fs = f :: rest /\ rest <> [] /\
     same_triples (f :: rest) /\
     gene (collect gid defs fs) = Ok (Some f, [msg_same_coordinates gid])) \/
  (exists t f rest,
     gene_types defs fs = {[t]} /\ occurrences t fs = f :: rest /\ rest <> [] /\
     ~ same_triples (f :: rest) /\
     gene (collect gid defs fs) = Ok (None, [msg_multiple_features gid])).
Proof.
  destruct (size (gene_types defs fs)) as [|[|n]] eqn:Hsize.
  - left. split; [reflexivity|]. apply gene_no_definition, Hsize.
  - right. right.
    apply size_1_elem_of in Hsize. destruct Hsize as [t Ht].
    apply leibniz_equiv in Ht.
    assert (Hin : t ∈ gene_types defs fs)
      by (rewrite Ht; apply elem_of_singleton_2; reflexivity).
    unfold gene_types in Hin. apply elem_of_intersection in Hin.
    destruct Hin as [_ Hin].
    rewrite elem_of_list_to_set, list_elem_of_fmap in Hin.
    destruct Hin as [f0 [Hty Hf0]].
    destruct (occurrences t fs) as [|f rest] eqn:Hocc.
    { exfalso. assert (Hf : f0 ∈ occurrences t fs).
      { unfold occurrences. apply list_elem_of_filter. split; [congruence|exact Hf0]. }
      rewrite Hocc in Hf. inversion Hf. }
    destruct (gene_one_definition gid defs fs t f rest Ht Hocc) as [H1 [H2 H3]].
    destruct rest as [|g rest].
    { left. exists t, f. split; [exact Ht|]. split; [exact Hocc|]. apply H1. reflexivity. }
    right.
    destruct (decide (Forall (fun x => triple x = triple f) (g :: rest))) as [Hs|Hd].
    + left. exists t, f, (g :: rest).
      assert (Hsame : same_triples (f :: g :: rest))
        by (apply same_triples_head; apply Forall_forall, Hs).
      split; [exact Ht|]. split; [exact Hocc|]. split; [discriminate|].
      split; [exact Hsame|]. apply H2; [discriminate|exact Hsame].
    + right. exists t, f, (g :: rest).
      assert (Hdiff : ~ same_triples (f :: g :: rest)).
      { intros Hs. apply Hd, Forall_forall. apply same_triples_head, Hs. }
      split; [exact Ht|]. split; [exact Hocc|]. split; [discriminate|].
      split; [exact Hdiff|]. apply H3; [discriminate|exact Hdiff].
  - right. left. split; [lia|]. apply gene_multiple_definitions. rewrite Hsize. lia.
Qed.

(** X8: on a GeneInfo fed by add_feature, [gene] never raises: none of
    its index and key lookups fails. It writes at most one line to
    stderr, and always one when it returns None. *)
Theorem gene_never_raises gid defs fs :
  exists o w,
    gene (collect gid defs fs) = Ok (o, w) /\
    (length w <= 1)%nat /\ (o = None -> length w = 1%nat).
Proof.
  destruct (gene_cases gid defs fs)
    as [[_ H]|[[_ H]|[[t [f [_ [_ H]]]]|[[t [f [rest [_ [_ [_ [_ H]]]]]]]
       |[t [f [rest [_ [_ [_ [_ H]]]]]]]]]]];
    rewrite H; eexists; eexists; (split; [reflexivity|]); simpl;
    (split; [lia|]); intros; (reflexivity || discriminate).
Qed.

(** X9: a feature [gene] returns is one of the stored features, its type
    is a gene definition, and every stored feature of a gene-defining
    type has the same type and the same (start, end, strand) as it. *)
Theorem gene_returns_the_definition gid defs fs f w :
  gene (collect gid defs fs) = Ok (Some f, w) ->
  f ∈ fs /\ type f ∈ defs /\
  forall g, g ∈ fs -> type g ∈ defs -> type g = type f /\ triple g = triple f.
Proof.
  intros Hg.
  assert (Hshape : exists t rest,
             gene_types defs fs = {[t]} /\ occurrences t fs = f :: rest /\
             same_triples (f :: rest)).
  { destruct (gene_cases gid defs fs)
      as [[_ H]|[[_ H]|[[t [f0 [Ht [Ho H]]]]|[[t [f0 [rest [Ht [Ho [_ [Hs H]]]]]]]
         |[t [f0 [rest [_ [_ [_ [_ H]]]]]]]]]]];
      rewrite H in Hg; try discriminate Hg.
    - injection Hg as <- _. exists t, []. split; [exact Ht|]. split; [exact Ho|].
      intros a b Ha Hb. apply list_elem_of_singleton in Ha.
      apply list_elem_of_singleton in Hb. congruence.
    - injection Hg as <- _. exists t, rest. auto. }
  destruct Hshape as [t [rest [Ht [Ho Hs]]]].
  assert (Hf : f ∈ occurrences t fs) by (rewrite Ho; left).
  unfold occurrences in Hf. apply list_elem_of_filter in Hf. destruct Hf as [Hty Hf].
  assert (Htin : t ∈ gene_types defs fs)
    by (rewrite Ht; apply elem_of_singleton_2; reflexivity).
  unfold gene_types in Htin. apply elem_of_intersection in Htin.
  destruct Htin as [Htd _]. apply elem_of_list_to_set in Htd.
  split; [exact Hf|]. split; [rewrite Hty; exact Htd|].
  intros g Hgin Hgd.
  assert (Hgt : type g ∈ gene_types defs fs).
  { unfold gene_types. apply elem_of_intersection. split.
    - apply elem_of_list_to_set, Hgd.
    - apply elem_of_list_to_set, list_elem_of_fmap. exists g. auto. }
  rewrite Ht in Hgt. apply elem_of_singleton in Hgt.
  split; [congruence|].
  apply Hs; [|left].
  rewrite <- Ho. unfold occurrences. apply list_elem_of_filter. auto.
Qed.

Lemma gene_returns_the_definition_witness :
  Examples.gene1 ∈ [Examples.gene1; Examples.exon1; Examples.gene1_copy] /\
  type Examples.gene1 ∈ default_geneDefinitions /\
  forall g, g ∈ [Examples.gene1; Examples.exon1; Examples.gene1_copy] ->
            type g ∈ default_geneDefinitions ->
            type g = type Examples.gene1 /\ triple g = triple Examples.gene1.
Proof.
  apply (gene_returns_the_definition "g1" default_geneDefinitions
           [Examples.gene1; Examples.exon1; Examples.gene1_copy] Examples.gene1
           [msg_same_coordinates "g1"]).
  vm_compute. reflexivity.
Defined.

Lemma gene_types_perm defs fs fs' :
  fs ≡ₚ fs' -> gene_types defs fs = gene_types defs fs'.
Proof.
  intros H. unfold gene_types. f_equal. apply set_eq. intros x.
  rewrite !elem_of_list_to_set, H. reflexivity.
Qed.

Lemma occurrences_perm t fs fs' :
  fs ≡ₚ fs' -> occurrences t fs ≡ₚ occurrences t fs'.
Proof. intros H. unfold occurrences. rewrite H. reflexivity. Qed.

Lemma same_triples_perm occ occ' :
  occ ≡ₚ occ' -> same_triples occ -> same_triples occ'.
Proof.
  intros H Hs f g Hf Hg. rewrite <- H in Hf, Hg. apply Hs; assumption.
Qed.

(** X10: the order in which the features were added decides only which
    of several equal definitions is returned. For two orders of the same
    features [gene] returns None and the same line on stderr for both,
    or for both a feature, of the same type and with the same (start,
    end, strand), with the same lines on stderr. *)
Theorem gene_order_independent gid defs fs fs' :
  fs ≡ₚ fs' ->
  (forall w, gene (collect gid defs fs) = Ok (None, w) ->
             gene (collect gid defs fs') = Ok (None, w)) /\
  (forall f w, gene (collect gid defs fs) = Ok (Some f, w) ->
     exists f', gene (collect gid defs fs') = Ok (Some f', w) /\
                type f' = type f /\ triple f' = triple f).
Proof.
  intros Hperm.
  pose proof (gene_types_perm defs fs fs' Hperm) as Htypes.
  assert (Hhead : forall t f rest,
             occurrences t fs = f :: rest ->
             exists f' rest', occurrences t fs' = f' :: rest' /\
                              length rest' = length rest /\ type f' = type f /\
                              f' ∈ f :: rest).
  { intros t f rest Ho.
    pose proof (occurrences_perm t fs fs' Hperm) as Hp. rewrite Ho in Hp.
    destruct (occurrences t fs') as [|f' rest'] eqn:Ho'.
    - apply Permutation_nil_r in Hp. discriminate Hp.
    - exists f', rest'. split; [reflexivity|].
      split; [apply Permutation_length in Hp; simpl in Hp; lia|].
      assert (Hin : f' ∈ f :: rest) by (rewrite Hp; left).
      split; [|exact Hin].
      assert (H1 : f' ∈ occurrences t fs') by (rewrite Ho'; left).
      assert (H2 : f ∈ occurrences t fs) by (rewrite Ho; left).
      unfold occurrences in H1, H2.
      apply list_elem_of_filter in H1. apply list_elem_of_filter in H2.
      destruct H1 as [-> _]. destruct H2 as [<- _]. reflexivity. }
  destruct (gene_cases gid defs fs)
    as [[Hs H]|[[Hs H]|[[t [f0 [Ht [Ho H]]]]|[[t [f0 [rest [Ht [Ho [Hr [Hsame H]]]]]]]
       |[t [f0 [rest [Ht [Ho [Hr [Hdiff H]]]]]]]]]]]; rewrite H.
  - split; [|intros f w Hg; discriminate Hg].
    intros w Hg. injection Hg as <-. apply gene_no_definition. rewrite <- Htypes. exact Hs.
  - split; [|intros f w Hg; discriminate Hg].
    intros w Hg. injection Hg as <-. apply gene_multiple_definitions.
    rewrite <- Htypes. exact Hs.
  - split; [intros w Hg; discriminate Hg|].
    intros f w Hg. injection Hg as <- <-.
    pose proof (occurrences_perm t fs fs' Hperm) as Hp. rewrite Ho in Hp.
    symmetry in Hp. apply Permutation_singleton_r in Hp.
    exists f0. split; [|split; reflexivity].
    apply (gene_one_definition gid defs fs' t f0 []); [congruence|exact Hp|reflexivity].
  - split; [intros w Hg; discriminate Hg|].
    intros f w Hg. injection Hg as <- <-.
    destruct (Hhead t f0 rest Ho) as [f' [rest' [Ho' [Hlen [Hty Hin]]]]].
    exists f'. split; [|split; [exact Hty|apply Hsame; [exact Hin|left]]].
    apply (gene_one_definition gid defs fs' t f' rest'); [congruence|exact Ho'| |].
    + destruct rest'; [destruct rest; [contradiction|discriminate Hlen]|discriminate].
    + rewrite <- Ho'. eapply same_triples_perm; [|rewrite <- Ho in Hsame; exact Hsame].
      apply occurrences_perm, Hperm.
  - split; [|intros f w Hg; discriminate Hg].
    intros w Hg. injection Hg as <-.
    destruct (Hhead t f0 rest Ho) as [f' [rest' [Ho' [Hlen [Hty Hin]]]]].
    apply (gene_one_definition gid defs fs' t f' rest'); [congruence|exact Ho'| |].
    + destruct rest'; [destruct rest; [contradiction|discriminate Hlen]|discriminate].
    + intros Hs. apply Hdiff. rewrite <- Ho.
      eapply same_triples_perm; [|rewrite <- Ho' in Hs; exact Hs].
      symmetry. apply occurrences_perm, Hperm.
Qed.

Lemma gene_order_independent_witness :
  exists f',
    gene (collect "g1" default_geneDefinitions
            [Examples.gene1_copy; Examples.gene1; Examples.exon1]) =
      Ok (Some f', [msg_same_coordinates "g1"]) /\
    type f' = type Examples.gene1 /\ triple f' = triple Examples.gene1.
Proof.
  apply (proj2 (gene_order_independent "g1" default_geneDefinitions
                  [Examples.gene1; Examples.exon1; Examples.gene1_copy]
                  [Examples.gene1_copy; Examples.gene1; Examples.exon1]
                  ltac:(symmetry;
                         apply (Permutation_cons_append
                                  [Examples.gene1; Examples.exon1] Examples.gene1_copy)))).
  vm_compute. reflexivity.
Defined.

End GffMore.

(** ** More on the annotation processor *)

Module ClipMore.

Import Gff Clip OdictFacts GffFacts ClipFacts.

Section Sorted.

Variable isGene : Feature -> bool.
Variable toBedDetailed : Gene -> list string.
Variable summary_add : GeneLengthSummary -> Gene -> GeneLengthSummary.
Variables splitExons_opt processGeneOnlyInformation_opt : bool.

Local Abbreviation loop :=
  (sorted_loop isGene toBedDetailed summary_add splitExons_opt
               processGeneOnlyInformation_opt).
Local Abbreviation finalize := (processGene toBedDetailed summary_add).
Local Abbreviation block_gene :=
  (gene_of_block splitExons_opt processGeneOnlyInformation_opt).

(** The loop over well-formed blocks, from a run in which [genes] were
    finalized and [slot] is the current gene. *)
Lemma sorted_loop_blocks blocks st genes slot :
  Forall (fun blk => isGene blk.1 = true /\
                     Forall (fun f => isGene f = false) blk.2) blocks ->
  exists r,
    loop slot (finalized toBedDetailed summary_add st genes) (flatten_blocks blocks) = Ok r /\
    finalize r.1 r.2 =
      finalized toBedDetailed summary_add st
        (genes ++ match slot with Some g => [g] | None => [] end
               ++ (block_gene <$> blocks)).
Proof.
  intros H. revert genes slot.
  induction H as [|[g subs] blocks [Hg Hsubs] _ IH]; intros genes slot.
  - simpl. eexists. split; [reflexivity|]. simpl. rewrite app_nil_r.
    destruct slot as [g|]; [apply finalize_finalized|].
    simpl. rewrite app_nil_r. reflexivity.
  - unfold flatten_blocks in *. rewrite fmap_cons. simpl concat. simpl in Hg, Hsubs.
    rewrite sorted_loop_gene by exact Hg.
    rewrite sorted_loop_subordinates by exact Hsubs.
    rewrite fold_Gene_add. simpl.
    change {| feature := g; splitExons := splitExons_opt;
              processGeneOnlyInformation := processGeneOnlyInformation_opt;
              subordinates := subs |} with (block_gene (g, subs)).
    destruct slot as [g0|].
    + rewrite finalize_finalized.
      destruct (IH (genes ++ [g0]) (Some (block_gene (g, subs)))) as [r [Hr Hfin]].
      exists r. split; [exact Hr|]. rewrite Hfin.
      rewrite <- !app_assoc. reflexivity.
    + simpl.
      destruct (IH genes (Some (block_gene (g, subs)))) as [r [Hr Hfin]].
      exists r. split; [exact Hr|]. rewrite Hfin. reflexivity.
Qed.

End Sorted.

Lemma process_sorted_blocks isGene toBedDetailed summary_add splitExons_opt
    processGeneOnlyInformation_opt st blocks :
  Forall (fun blk => isGene blk.1 = true /\
                     Forall (fun f => isGene f = false) blk.2) blocks ->
  _process_sorted isGene toBedDetailed summary_add splitExons_opt
    processGeneOnlyInformation_opt st (flatten_blocks blocks) =
  Ok (finalized toBedDetailed summary_add st
        (gene_of_block splitExons_opt processGeneOnlyInformation_opt <$> blocks)).
Proof.
  intros H. unfold _process_sorted.
  destruct (sorted_loop_blocks isGene toBedDetailed summary_add splitExons_opt
              processGeneOnlyInformation_opt blocks st [] None H) as [r [Hr Hfin]].
  rewrite finalized_nil in Hr. rewrite Hr. cbn [bind]. rewrite Hfin. reflexivity.
Qed.

(** X11: in sorted mode a stream made of blocks, each a gene-defining
    feature followed by features that are not, is processed without an
    error into one gene per block, in file order, with the other
    features of the block as its subordinate features: the lines of the
    genes are appended to the output in that order and summary.add is
    applied once per gene, in that order. The empty stream changes
    nothing. *)
Theorem sorted_mode_blocks isGene toBedDetailed summary_add splitExons_opt
    processGeneOnlyInformation_opt st blocks :
  Forall (fun blk => isGene blk.1 = true /\
                     Forall (fun f => isGene f = false) blk.2) blocks ->
  _process_sorted isGene toBedDetailed summary_add splitExons_opt
    processGeneOnlyInformation_opt st (flatten_blocks blocks) =
  Ok (finalized toBedDetailed summary_add st
        (gene_of_block splitExons_opt processGeneOnlyInformation_opt <$> blocks)).
Proof. apply process_sorted_blocks. Qed.

Lemma sorted_mode_blocks_witness :
  _process_sorted Examples.by_type Examples.bed_of Examples.count_gene true true
    start_run
    (flatten_blocks [(Examples.gene1, [Examples.exon1]); (Examples.trna1, [])]) =
  Ok (finalized Examples.bed_of Examples.count_gene start_run
        (gene_of_block true true <$>
           [(Examples.gene1, [Examples.exon1]); (Examples.trna1, [])])).
Proof.
  apply sorted_mode_blocks.
  repeat constructor; vm_compute; reflexivity.
Defined.

Section Fresh.

Context {V : Type}.
Implicit Types (d : odict V) (k : string) (v : V).

Lemma od_set_fresh d k v : od_get d k = None -> od_set d k v = d ++ [(k, v)].
Proof.
  induction d as [|[k0 v0] d IH]; simpl; [reflexivity|].
  destruct (String.eqb_spec k0 k); [discriminate|]. intros H. rewrite IH by exact H.
  reflexivity.
Qed.

Lemma od_get_last d k v : od_get d k = None -> od_get (d ++ [(k, v)]) k = Some v.
Proof.
  intros H. rewrite <- (od_set_fresh d k v H). apply od_get_set_eq.
Qed.

Lemma od_set_last d k v v' :
  od_get d k = None -> od_set (d ++ [(k, v)]) k v' = d ++ [(k, v')].
Proof.
  induction d as [|[k0 v0] d IH]; simpl.
  - rewrite String.eqb_refl. reflexivity.
  - destruct (String.eqb_spec k0 k); [discriminate|]. intros H. rewrite IH by exact H.
    reflexivity.
Qed.

End Fresh.

Section Grouping.

Variable geneId : string.

(** The features of one block, all of the gene id [gid], which is new to
    the mapping, give one more entry. *)
Lemma group_block geneMap gid fs0 fs :
  od_get geneMap gid = None ->
  Forall (fun f => attr f !! geneId = Some gid) fs ->
  fold_left (group_feature geneId) fs
    (geneMap ++ [(gid, collect gid default_geneDefinitions fs0)]) =
  geneMap ++ [(gid, collect gid default_geneDefinitions (fs0 ++ fs))].
Proof.
  intros Hnew H. revert fs0. induction H as [|f fs Hf _ IH]; intros fs0.
  - rewrite app_nil_r. reflexivity.
  - simpl. unfold group_feature at 2. rewrite Hf, od_get_last by exact Hnew.
    rewrite od_set_last by exact Hnew. rewrite <- collect_snoc, IH, <- app_assoc.
    reflexivity.
Qed.

Lemma group_tagged (tagged : list (string * (Feature * list Feature))) :
  Forall (fun e => block_id geneId e.2 e.1) tagged ->
  NoDup tagged.*1 ->
  group_features geneId (flatten_blocks tagged.*2) =
  (fun e => (e.1, collect e.1 default_geneDefinitions (e.2.1 :: e.2.2))) <$> tagged.
Proof.
  induction tagged as [|[gid [g subs]] tagged IH] using rev_ind; [reflexivity|].
  rewrite Forall_app, Forall_singleton, !fmap_app. simpl.
  intros [Hall [Hg Hsubs]] Hnd. simpl in Hg, Hsubs.
  apply NoDup_app in Hnd. destruct Hnd as [Hnd [Hfresh _]].
  unfold flatten_blocks, group_features in *.
  rewrite fmap_app, concat_app, fold_left_app, IH by assumption.
  simpl. rewrite app_nil_r.
  assert (Hnone : od_get ((fun e : string * (Feature * list Feature) =>
                             (e.1, collect e.1 default_geneDefinitions (e.2.1 :: e.2.2)))
                            <$> tagged) gid = None).
  { apply od_get_None. unfold od_keys.
    change (map fst) with (fmap (M:=list) (@fst string GeneInfo)).
    rewrite <- list_fmap_compose. intros Hin. apply (Hfresh gid); [exact Hin|left]. }
  unfold group_feature at 2. rewrite Hg, Hnone, od_set_fresh by exact Hnone.
  apply (group_block _ gid [g] subs Hnone Hsubs).
Qed.

End Grouping.

Section Emitting.

Variable toBedDetailed : Gene -> list string.
Variable summary_add : GeneLengthSummary -> Gene -> GeneLengthSummary.
Variables splitExons_opt processGeneOnlyInformation_opt : bool.

Local Abbreviation block_gene :=
  (gene_of_block splitExons_opt processGeneOnlyInformation_opt).

(** A block with one gene-defining feature in front resolves to it. *)
Lemma gene_of_block_resolved gid g subs :
  type g ∈ default_geneDefinitions ->
  Forall (fun f => type f ∉ default_geneDefinitions) subs ->
  gene (collect gid default_geneDefinitions (g :: subs)) = Ok (Some g, []) /\
  build_gene default_geneDefinitions splitExons_opt processGeneOnlyInformation_opt g
    (collect gid default_geneDefinitions (g :: subs)) = block_gene (g, subs).
Proof.
  intros Hg Hsubs. rewrite Forall_forall in Hsubs.
  assert (Hfilter : forall (P : Feature -> Prop) `{!forall f, Decision (P f)},
             (forall f, f ∈ subs -> ~ P f) -> filter P subs = []).
  { intros P HP Hno. induction subs as [|f l IH]; [reflexivity|].
    rewrite filter_cons. destruct (decide (P f)) as [Hp|_].
    - exfalso. apply (Hno f); [left|exact Hp].
    - apply IH; intros; [apply Hsubs|apply Hno]; right; assumption. }
  split.
  - apply (gene_one_definition gid default_geneDefinitions (g :: subs) (type g) g []);
      [| |reflexivity].
    + unfold gene_types. apply set_eq. intros x.
      rewrite elem_of_intersection, !elem_of_list_to_set, elem_of_singleton, fmap_cons,
        elem_of_cons, list_elem_of_fmap. split.
      * intros [Hx [->|[f [-> Hf]]]]; [reflexivity|]. exfalso. apply (Hsubs f Hf Hx).
      * intros ->. split; [exact Hg|left; reflexivity].
    + unfold occurrences. rewrite filter_cons.
      destruct (decide (type g = type g)); [|congruence]. f_equal.
      apply Hfilter. intros f Hf Hty. apply (Hsubs f Hf). rewrite Hty. exact Hg.
  - unfold build_gene, features. rewrite collect_featList, filter_cons.
    destruct (decide (type g ∉ (list_to_set default_geneDefinitions : gset string)))
      as [Hn|_]; [exfalso; apply Hn, elem_of_list_to_set, Hg|].
    assert (Hkeep : filter (fun f => type f ∉ (list_to_set default_geneDefinitions
                                                : gset string)) subs = subs).
    { clear Hfilter. induction subs as [|f l IH]; [reflexivity|].
      rewrite filter_cons.
      destruct (decide (type f ∉ (list_to_set default_geneDefinitions : gset string)))
        as [_|Hn].
      - f_equal. apply IH. intros f' Hf'. apply Hsubs. right. exact Hf'.
      - exfalso. apply Hn. rewrite elem_of_list_to_set. apply Hsubs. left. }
    rewrite Hkeep, fold_Gene_add. reflexivity.
Qed.

Lemma emit_tagged (tagged : list (string * (Feature * list Feature))) st genes :
  Forall (fun e => type e.2.1 ∈ default_geneDefinitions /\
                   Forall (fun f => type f ∉ default_geneDefinitions) e.2.2) tagged ->
  emit_genes toBedDetailed summary_add default_geneDefinitions splitExons_opt
    processGeneOnlyInformation_opt (finalized toBedDetailed summary_add st genes)
    ((fun e => (e.1, collect e.1 default_geneDefinitions (e.2.1 :: e.2.2))) <$> tagged) =
  Ok (finalized toBedDetailed summary_add st (genes ++ (block_gene <$> tagged.*2))).
Proof.
  intros H. revert genes.
  induction H as [|[gid [g subs]] tagged [Hg Hsubs] _ IH]; intros genes.
  - simpl. rewrite app_nil_r. reflexivity.
  - simpl in Hg, Hsubs. rewrite !fmap_cons. cbn [emit_genes fst snd].
    destruct (gene_of_block_resolved gid g subs Hg Hsubs) as [Hgene Hbuild].
    rewrite Hgene. cbn [bind fst snd]. rewrite Hbuild.
    rewrite finalize_finalized, IH, <- app_assoc. reflexivity.
Qed.

End Emitting.

(** X13: on a stream in file order the two modes agree. When the
    gene-defining features are those of a default gene definition type,
    every block carries one gene id of its own and there is at least one
    block, unsorted mode with the default gene definitions and sorted
    mode return the same output and the same summary: one gene per
    block, in file order. *)
Theorem modes_agree isGene toBedDetailed summary_add gtfFile geneId splitExons_opt
    processGeneOnlyInformation_opt st
    (tagged : list (string * (Feature * list Feature))) :
  (forall f, isGene f = true <-> type f ∈ default_geneDefinitions) ->
  tagged <> [] ->
  Forall (fun e => block_id geneId e.2 e.1) tagged ->
  NoDup tagged.*1 ->
  Forall (fun e => isGene e.2.1 = true /\ Forall (fun f => isGene f = false) e.2.2)
         tagged ->
  _process_unsorted toBedDetailed summary_add gtfFile geneId default_geneDefinitions
    splitExons_opt processGeneOnlyInformation_opt st (flatten_blocks tagged.*2) =
  _process_sorted isGene toBedDetailed summary_add splitExons_opt
    processGeneOnlyInformation_opt st (flatten_blocks tagged.*2) /\
  _process_sorted isGene toBedDetailed summary_add splitExons_opt
    processGeneOnlyInformation_opt st (flatten_blocks tagged.*2) =
  Ok (finalized toBedDetailed summary_add st
        (gene_of_block splitExons_opt processGeneOnlyInformation_opt <$> tagged.*2)).
Proof.
  intros HisGene Hne Hids Hnd Hblocks.
  assert (Hsorted : _process_sorted isGene toBedDetailed summary_add splitExons_opt
            processGeneOnlyInformation_opt st (flatten_blocks tagged.*2) =
          Ok (finalized toBedDetailed summary_add st
                (gene_of_block splitExons_opt processGeneOnlyInformation_opt
                   <$> tagged.*2))).
  { apply process_sorted_blocks. rewrite Forall_fmap.
    eapply Forall_impl; [exact Hblocks|]. intros e He. exact He. }
  split; [|exact Hsorted]. rewrite Hsorted.
  unfold _process_unsorted. rewrite (group_tagged geneId tagged Hids Hnd).
  rewrite length_fmap.
  destruct (Nat.eqb_spec (length tagged) 0) as [Hz|_];
    [destruct tagged; [contradiction|discriminate Hz]|].
  rewrite <- (finalized_nil toBedDetailed summary_add st) at 1.
  rewrite emit_tagged; [reflexivity|].
  eapply Forall_impl; [exact Hblocks|]. intros [gid [g subs]] [Hg Hsubs].
  simpl in *. split; [apply HisGene, Hg|].
  eapply Forall_impl; [exact Hsubs|]. intros f Hf Hin.
  apply HisGene in Hin. congruence.
Qed.

Lemma modes_agree_witness :
  _process_unsorted Examples.bed_of Examples.count_gene "in.gff" "gene_id"
    default_geneDefinitions true true start_run
    (flatten_blocks [(Examples.gene1, [Examples.exon1]); (Examples.gene2, [Examples.exon2])]) =
  _process_sorted Examples.by_type Examples.bed_of Examples.count_gene true true start_run
    (flatten_blocks [(Examples.gene1, [Examples.exon1]); (Examples.gene2, [Examples.exon2])]) /\
  _process_sorted Examples.by_type Examples.bed_of Examples.count_gene true true start_run
    (flatten_blocks [(Examples.gene1, [Examples.exon1]); (Examples.gene2, [Examples.exon2])]) =
  Ok (finalized Examples.bed_of Examples.count_gene start_run
        (gene_of_block true true <$>
           [(Examples.gene1, [Examples.exon1]); (Examples.gene2, [Examples.exon2])])).
Proof.
  apply (modes_agree Examples.by_type Examples.bed_of Examples.count_gene "in.gff"
           "gene_id" true true start_run
           [("g1"%string, (Examples.gene1, [Examples.exon1]));
            ("g2"%string, (Examples.gene2, [Examples.exon2]))]).
  - intros f. unfold Examples.by_type. apply bool_decide_eq_true.
  - discriminate.
  - repeat constructor.
  - apply NoDup_cons_2; [|apply NoDup_singleton].
    intros H. apply list_elem_of_singleton in H. discriminate H.
  - repeat constructor.
Defined.

Section Order.

Variable geneId : string.

Lemma elem_of_first_seen ks k : k ∈ first_seen ks <-> k ∈ ks.
Proof.
  induction ks as [|k0 ks IH] using rev_ind; [reflexivity|].
  rewrite first_seen_snoc, elem_of_app, list_elem_of_singleton.
  destruct (decide (k0 ∈ first_seen ks)) as [Hin|Hout].
  - rewrite IH. split; [tauto|]. intros [H| ->]; [exact H|]. apply IH, Hin.
  - rewrite elem_of_app, list_elem_of_singleton, IH. reflexivity.
Qed.

Lemma NoDup_first_seen ks : NoDup (first_seen ks).
Proof.
  induction ks as [|k0 ks IH] using rev_ind; [constructor|].
  rewrite first_seen_snoc. destruct (decide (k0 ∈ first_seen ks)); [exact IH|].
  apply NoDup_app. split; [exact IH|]. split; [|apply NoDup_singleton].
  intros x Hx Hx'. apply list_elem_of_singleton in Hx'. subst. contradiction.
Qed.

Lemma gene_ids_snoc gtf f :
  gene_ids geneId (gtf ++ [f]) =
  gene_ids geneId gtf ++ match attr f !! geneId with Some g => [g] | None => [] end.
Proof.
  unfold gene_ids. rewrite omap_app. simpl. destruct (attr f !! geneId); reflexivity.
Qed.

Lemma group_features_keys gtf :
  od_keys (group_features geneId gtf) = first_seen (gene_ids geneId gtf).
Proof.
  induction gtf as [|f gtf IH] using rev_ind; [reflexivity|].
  rewrite group_features_snoc, gene_ids_snoc. unfold group_feature.
  destruct (attr f !! geneId) as [g|]; [|rewrite app_nil_r; exact IH].
  rewrite first_seen_snoc, <- IH.
  destruct (od_get (group_features geneId gtf) g); apply od_keys_set.
Qed.

Lemma features_of_nil gid gtf :
  features_of geneId gid gtf = [] <-> gid ∉ gene_ids geneId gtf.
Proof.
  unfold features_of, gene_ids. induction gtf as [|f gtf IH]; simpl.
  - split; [intros _; apply not_elem_of_nil|reflexivity].
  - rewrite filter_cons. destruct (attr f !! geneId) as [g|] eqn:Hattr.
    + rewrite not_elem_of_cons.
      destruct (decide (Some g = Some gid)) as [E|E].
      * split; [discriminate|]. intros [H _]. congruence.
      * rewrite IH. split; [intros H; split; [congruence|exact H]|intros [_ H]; exact H].
    + destruct (decide (None = Some gid)) as [E|E]; [discriminate|exact IH].
Qed.

Lemma od_get_tabulate {V} (G : string -> V) (ks : list string) (k : string) :
  od_get (((fun gid => (gid, G gid)) <$> ks) : odict V) k =
  if decide (k ∈ ks) then Some (G k) else None.
Proof.
  induction ks as [|k0 ks IH].
  - simpl. destruct (decide (k ∈ [])) as [H|H]; [inversion H|reflexivity].
  - rewrite fmap_cons. cbn [od_get]. destruct (String.eqb_spec k0 k) as [E|E].
    + subst. destruct (decide (k ∈ k :: ks)) as [_|H]; [reflexivity|].
      exfalso. apply H. left.
    + rewrite IH. destruct (decide (k ∈ ks)) as [H|H];
        destruct (decide (k ∈ k0 :: ks)) as [H'|H']; try reflexivity.
      * exfalso. apply H'. right. exact H.
      * apply elem_of_cons in H'. destruct H' as [->|H']; contradiction.
Qed.

Lemma od_ext {V} (d1 d2 : odict V) :
  od_keys d1 = od_keys d2 -> NoDup (od_keys d1) ->
  (forall k, od_get d1 k = od_get d2 k) -> d1 = d2.
Proof.
  revert d2. induction d1 as [|[k1 v1] d1 IH]; intros [|[k2 v2] d2] Hk Hnd Hget;
    try discriminate Hk; [reflexivity|].
  unfold od_keys in *. simpl in Hk. injection Hk as <- Hk.
  apply NoDup_cons in Hnd. destruct Hnd as [Hk1 Hnd].
  pose proof (Hget k1) as H1. simpl in H1. rewrite String.eqb_refl in H1.
  injection H1 as <-. f_equal. apply IH; [exact Hk|exact Hnd|].
  intros k. specialize (Hget k). simpl in Hget.
  destruct (String.eqb_spec k1 k) as [E|E]; [|exact Hget].
  subst. transitivity (@None V).
  - apply od_get_None. exact Hk1.
  - symmetry. apply od_get_None. unfold od_keys. rewrite <- Hk. exact Hk1.
Qed.

End Order.

(** X14: after the first pass of unsorted mode the mapping holds one
    entry per gene id, in the order in which the ids are first seen in
    the file, and the entry of an id is the GeneInfo fed with the
    features of that id in file order. *)
Theorem unsorted_mode_first_pass geneId gtf :
  group_features geneId gtf =
  (fun gid => (gid, collect gid default_geneDefinitions (features_of geneId gid gtf)))
    <$> first_seen (gene_ids geneId gtf).
Proof.
  apply od_ext.
  - rewrite group_features_keys. unfold od_keys.
    change (map fst) with (fmap (M:=list) (@fst string GeneInfo)).
    rewrite <- list_fmap_compose. symmetry. apply list_fmap_id.
  - rewrite group_features_keys. apply NoDup_first_seen.
  - intros k. rewrite group_features_get.
    rewrite (od_get_tabulate
               (fun gid => collect gid default_geneDefinitions (features_of geneId gid gtf))).
    destruct (decide (k ∈ first_seen (gene_ids geneId gtf))) as [Hin|Hout].
    + destruct (features_of geneId k gtf) eqn:E; [|reflexivity].
      exfalso. apply (features_of_nil geneId) in E. apply E, elem_of_first_seen, Hin.
    + rewrite (proj2 (features_of_nil geneId k gtf)); [reflexivity|].
      intros H. apply Hout, elem_of_first_seen, H.
Qed.

End ClipMore.
